(** * Cache-Control directive parsing: a shallow embedding and its properties

    The development follows the Go package [cache]: the lexical predicates,
    the quoted-string scanner, the directive tokenizer [parseCacheControlv],
    the two directive records with their [setToken]/[setPair] methods, and
    [validateDeltaSeconds].

    Conventions.
    - A Go [string] is a sequence of bytes: [gostring := list ascii].
      [val[i]] is [byteAt val i], [val[i:j]] is [slice val i j], [len] is
      [length].  Every indexing in the source sits under a bounds guard, so
      the default byte of [byteAt] is never observed on those paths.
    - Go [int] positions are [nat]; the [int] returned by [parseQuotedString]
      is a [Z] because of its [-1] sentinel; [int32] and [uint64] values are
      [Z] with the wrap-around written out.
    - A method that mutates its receiver and returns [error] becomes a
      function to [result D]; a function returning a pointer and an
      [error] becomes a pair of options.
    - The two loops whose position does not advance by a fixed amount
      ([parseCacheControlv] and [parseQuotedString]) carry fuel; [None]
      stands for exhausted fuel and is shown never to happen. *)

From Stdlib Require Import ZArith Ascii String Lia.
From stdpp Require Import base tactics option list strings gmap.

Local Open Scope Z_scope.

(** ** Bytes and strings *)

Abbreviation gostring := (list ascii).

Definition str (s : string) : gostring := list_ascii_of_string s.
Coercion str : string >-> list.

Definition code (c : ascii) : Z := Z.of_N (N_of_ascii c).

Definition byteAt (s : gostring) (i : nat) : ascii := nth i s zero.

Definition slice (s : gostring) (lo hi : nat) : gostring :=
  take (hi - lo) (drop lo s).

Definition TAB : ascii := "009"%char.
Definition DQUOTE : ascii := "034"%char.
Definition BACKSLASH : ascii := "092"%char.
Definition COMMA : ascii := ","%char.
Definition EQUALS : ascii := "="%char.
Definition QUESTION : ascii := "?"%char.

(** ** Lexical matters of HTTP *)

Definition isWhiteSpace (c : ascii) : bool :=
  Ascii.eqb c TAB || Ascii.eqb c " ".

Definition separators : list ascii :=
  [ "("; ")"; "<"; ">"; "@"; ","; ";"; ":"; BACKSLASH; DQUOTE; "/"; "["; "]";
    "?"; "="; "{"; "}"; " "; TAB ]%char.

Definition isSeparator (c : ascii) : bool :=
  existsb (Ascii.eqb c) separators.

Definition isCtl (c : ascii) : bool := (code c <=? 31) || (code c =? 127).

Definition isChar (c : ascii) : bool := code c <=? 127.

Definition isAnyText (c : ascii) : bool := negb (isCtl c).

Definition isQdText (c : ascii) : bool := isAnyText c && negb (Ascii.eqb c DQUOTE).

Definition isToken (c : ascii) : bool :=
  isChar c && negb (isCtl c) && negb (isSeparator c).

(** ** Directive names *)

Definition HeaderMaxAge : gostring := "max-age".
Definition HeaderNoCache : gostring := "no-cache".
Definition HeaderNoStore : gostring := "no-store".
Definition HeaderMaxStale : gostring := "max-stale".
Definition HeaderMinFresh : gostring := "min-fresh".
Definition HeaderNoTransform : gostring := "no-transform".
Definition HeaderOnlyIfCached : gostring := "only-if-cached".
Definition HeaderPublic : gostring := "public".
Definition HeaderPrivate : gostring := "private".
Definition HeaderSMaxAge : gostring := "s-maxage".
Definition HeaderImmutable : gostring := "immutable".
Definition HeaderStaleIfError : gostring := "stale-if-error".
Definition HeaderMustRevalidate : gostring := "must-revalidate".
Definition HeaderProxyRevalidate : gostring := "proxy-revalidate".
Definition HeaderStaleWhileRevalidate : gostring := "stale-while-revalidate".

(** ** Errors *)

Inductive error : Type :=
| ErrMaxAgeDeltaSeconds
| ErrSMaxAgeDeltaSeconds
| ErrMaxStaleDeltaSeconds
| ErrMinFreshDeltaSeconds
| ErrStaleIfErrorDeltaSeconds
| ErrStaleWhileRevalidateDeltaSeconds
| ErrPublicDirectiveValue
| ErrNoCacheDirectiveValue
| ErrNoStoreDirectiveValue
| ErrImmutableDirectiveValue
| ErrNoTransformDirectiveValue
| ErrOnlyIfCachedDirectiveValue
| ErrMustRevalidateDirectiveValue
| ErrProxyRevalidateDirectiveValue
| ErrMissingClosingQuote
| ErrSyntax                                   (* strconv.ErrSyntax *)
| ErrRange                                    (* strconv.ErrRange *)
| NumError (num : gostring) (err : error)     (* *strconv.NumError of ParseUint *)
| Wrapf (e cause : error).                    (* fmt.Errorf("%w: %v", e, cause) *)

Inductive result (A : Type) : Type :=
| Ok (a : A)
| Err (e : error).
Arguments Ok {A} a.
Arguments Err {A} e.

(** The sink interface [directive]. *)
Class directive (D : Type) := {
  setToken : D -> gostring -> result D;
  setPair : D -> gostring -> gostring -> result D
}.

(** ** Functions of the Go standard library used by the package

    These are not part of the repository; each is written after the Go
    library's own definition, restricted to the way the package calls it. *)

(** [strings.ToLower] on its 7-bit path: ['A'..'Z'] are shifted by
    ['a' - 'A'], every other byte is kept.  (For input with a byte above 127
    the library switches to Unicode mapping, which is outside this model.) *)
Definition lower (c : ascii) : ascii :=
  if (65 <=? code c) && (code c <=? 90)
  then ascii_of_N (N_of_ascii c + 32) else c.

Definition ToLower (s : gostring) : gostring := map lower s.

(** [strings.Split(s, ",")]: the pieces between commas, always at least one. *)
Fixpoint Split (s : gostring) : list gostring :=
  match s with
  | [] => [[]]
  | c :: s' =>
      if Ascii.eqb c COMMA then [] :: Split s'
      else match Split s' with
           | p :: ps => (c :: p) :: ps
           | [] => [[c]]
           end
  end.

(** [textproto.TrimString]: leading, then trailing, ASCII space removed. *)
Definition isASCIISpace (b : ascii) : bool :=
  Ascii.eqb b " " || Ascii.eqb b TAB || Ascii.eqb b "010" || Ascii.eqb b "013".

Fixpoint trimLeft (s : gostring) : gostring :=
  match s with
  | c :: s' => if isASCIISpace c then trimLeft s' else s
  | [] => []
  end.

Definition TrimString (s : gostring) : gostring :=
  reverse (trimLeft (reverse (trimLeft s))).

(** [http.CanonicalHeaderKey] (that is [textproto.CanonicalMIMEHeaderKey]):
    a string with a byte that is not a header-field token byte is returned
    unchanged; otherwise the first letter and every letter after a hyphen
    are upper-cased and all other letters lower-cased. *)
Definition validHeaderFieldByte (c : ascii) : bool :=
  ((48 <=? code c) && (code c <=? 57)) ||
  ((65 <=? code c) && (code c <=? 90)) ||
  ((97 <=? code c) && (code c <=? 122)) ||
  existsb (Ascii.eqb c)
    [ "!"; "#"; "$"; "%"; "&"; "'"; "*"; "+"; "-"; "."; "^"; "_"; "`"; "|"; "~" ]%char.

Fixpoint canonicalMIMEHeaderKey (upper : bool) (a : gostring) : gostring :=
  match a with
  | [] => []
  | c :: a' =>
      let c' :=
        if upper && (97 <=? code c) && (code c <=? 122)
        then ascii_of_N (N_of_ascii c - 32)
        else if negb upper && (65 <=? code c) && (code c <=? 90)
        then ascii_of_N (N_of_ascii c + 32)
        else c in
      c' :: canonicalMIMEHeaderKey (Ascii.eqb c' "-") a'
  end.

Definition CanonicalHeaderKey (s : gostring) : gostring :=
  if forallb validHeaderFieldByte s then canonicalMIMEHeaderKey true s else s.

(** [strconv.ParseUint(s, base, bitSize)] for [2 <= base <= 36] and
    [1 <= bitSize <= 64] (the package calls it with 10 and 32): the
    [base == 0] prefix and underscore handling is not reached. *)
Definition maxUint64 : Z := 2 ^ 64 - 1.

Definition digitOf (c : ascii) : option Z :=
  let lc := Z.lor (code c) 32 in
  if (48 <=? code c) && (code c <=? 57) then Some (code c - 48)
  else if (97 <=? lc) && (lc <=? 122) then Some (lc - 97 + 10)
  else None.

Fixpoint ParseUint_loop (s0 : gostring) (base cutoff maxVal : Z)
    (s : gostring) (n : Z) : Z * option error :=
  match s with
  | [] => (n, None)
  | c :: s' =>
      match digitOf c with
      | None => (0, Some (NumError s0 ErrSyntax))
      | Some d =>
          if d >=? base then (0, Some (NumError s0 ErrSyntax))
          else if n >=? cutoff then (maxVal, Some (NumError s0 ErrRange))
          else
            let n := (n * base) mod 2 ^ 64 in
            let n1 := (n + d) mod 2 ^ 64 in
            if (n1 <? n) || (n1 >? maxVal)
            then (maxVal, Some (NumError s0 ErrRange))
            else ParseUint_loop s0 base cutoff maxVal s' n1
      end
  end.

Definition ParseUint (s : gostring) (base bitSize : Z) : Z * option error :=
  match s with
  | [] => (0, Some (NumError s ErrSyntax))
  | _ =>
      let cutoff := maxUint64 / base + 1 in
      let maxVal := 2 ^ bitSize - 1 in
      ParseUint_loop s base cutoff maxVal s 0
  end.

(** ** Delta-seconds *)

Definition MaxInt32 : Z := 2147483647.

(** The conversion [int32(x)] of a [uint64]. *)
Definition int32 (x : Z) : Z :=
  let w := x mod 2 ^ 32 in
  if w <? 2 ^ 31 then w else w - 2 ^ 32.

Definition validateDeltaSeconds (delta : gostring) : Z * option error :=
  match ParseUint delta 10 32 with
  | (deltaSec, Some err) =>
      match err with
      | NumError _ ErrRange => (MaxInt32, None)
      | _ => (-1, Some err)
      end
  | (deltaSec, None) =>
      if deltaSec >? MaxInt32 then (MaxInt32, None)
      else (int32 deltaSec, None)
  end.

(** ** The quoted-string scanner *)

Definition unquotePair (b : ascii) : ascii :=
  if Ascii.eqb b "a" then "007"
  else if Ascii.eqb b "b" then "008"
  else if Ascii.eqb b "f" then "012"
  else if Ascii.eqb b "n" then "010"
  else if Ascii.eqb b "r" then "013"
  else if Ascii.eqb b "t" then "009"
  else if Ascii.eqb b "v" then "011"
  else if Ascii.eqb b BACKSLASH then BACKSLASH
  else if Ascii.eqb b "'" then "'"
  else if Ascii.eqb b DQUOTE then DQUOTE
  else QUESTION.

(** The [for i := 1; i < rl; i++] loop of [parseQuotedString], one
    iteration per unit of fuel.  [buf] is the byte buffer of length [rl],
    written at [bufIdx].  (The counter [eat] of the source is never read and
    is left out.) *)
Fixpoint parseQuotedString_loop (fuel : nat) (raw buf : gostring)
    (bufIdx i : nat) : option (Z * gostring) :=
  if (i <? length raw)%nat then
    match fuel with
    | O => None
    | S fuel' =>
        let b := byteAt raw i in
        if Ascii.eqb b DQUOTE then
          Some (Z.of_nat (i + 1), take bufIdx buf)
        else if Ascii.eqb b BACKSLASH then
          if (length raw <? i + 2)%nat then Some (-1, [])
          else
            parseQuotedString_loop fuel' raw
              (<[bufIdx := unquotePair (byteAt raw (i + 1))]> buf)
              (bufIdx + 1) (i + 1 + 1)
        else
          parseQuotedString_loop fuel' raw
            (<[bufIdx := if isQdText b then b else QUESTION]> buf)
            (bufIdx + 1) (i + 1)
    end
  else Some (-1, []).

(** [raw] is never empty where the package calls this function (the call is
    guarded by [valueStart < vl]). *)
Definition parseQuotedString (raw : gostring) : option (Z * gostring) :=
  if negb (Ascii.eqb (byteAt raw 0) DQUOTE) then Some (-1, [])
  else
    let rl := length raw in
    parseQuotedString_loop rl raw (replicate rl zero) 0 1.

(** ** The tokenizer *)

Definition eqs (a b : gostring) : bool := bool_decide (a = b).

Definition tokenRequireExtensionFields (token : gostring) : bool :=
  if eqs token "no-cache" then true
  else if eqs token "private" then true
  else false.

(** [for pos < vl { if stop(val[pos]) { break }; pos++ }], with [rest] the
    bytes of [val] from [pos] on. *)
Fixpoint scanTo (stop : ascii -> bool) (rest : gostring) (pos : nat) : nat :=
  match rest with
  | [] => pos
  | c :: rest' => if stop c then pos else scanTo stop rest' (S pos)
  end.

Definition tokenStop (c : ascii) : bool := negb (isToken c).

Definition valueStop (requireExtensionField : bool) (c : ascii) : bool :=
  isWhiteSpace c || (negb requireExtensionField && Ascii.eqb c COMMA).

(** Removal of one trailing comma from an unquoted value. *)
Definition stripComma (value : gostring) : gostring :=
  if negb (eqs value "") && Ascii.eqb (byteAt value (length value - 1)) COMMA
  then take (length value - 1) value
  else value.

(** One iteration of the [for index < vl] loop, entered with [index < vl]:
    the sink after the iteration and the new [index], or the error
    returned. *)
Definition parseCacheControlv_iter {D} `{directive D}
    (d : D) (val : gostring) (index : nat) : option (result (D * nat)) :=
  let vl := length val in
  if isWhiteSpace (byteAt val index) || Ascii.eqb (byteAt val index) COMMA
  then Some (Ok (d, (index + 1)%nat))
  else
    let tokenEnd := scanTo tokenStop (drop (index + 1) val) (index + 1) in
    let token := ToLower (slice val index tokenEnd) in
    let requireExtensionField := tokenRequireExtensionFields token in
    if (tokenEnd + 1 <? vl)%nat && Ascii.eqb (byteAt val tokenEnd) EQUALS then
      let valueStart := (tokenEnd + 1)%nat in
      if (valueStart <? vl)%nat && Ascii.eqb (byteAt val valueStart) DQUOTE then
        match parseQuotedString (drop valueStart val) with
        | None => None
        | Some (eaten, value) =>
            if eaten =? -1 then Some (Err ErrMissingClosingQuote)
            else
              match setPair d token value with
              | Err err => Some (Err err)
              | Ok d' => Some (Ok (d', (valueStart + Z.to_nat eaten)%nat))
              end
        end
      else
        let valueEnd :=
          scanTo (valueStop requireExtensionField) (drop valueStart val) valueStart in
        let value := stripComma (slice val valueStart valueEnd) in
        match setPair d token value with
        | Err err => Some (Err err)
        | Ok d' => Some (Ok (d', valueEnd))
        end
    else
      if negb (eqs token ",") then
        match setToken d token with
        | Err err => Some (Err err)
        | Ok d' => Some (Ok (d', tokenEnd))
        end
      else Some (Ok (d, tokenEnd)).

Fixpoint parseCacheControlv_loop {D} `{directive D}
    (fuel : nat) (d : D) (val : gostring) (index : nat) : option (result D) :=
  if (index <? length val)%nat then
    match fuel with
    | O => None
    | S fuel' =>
        match parseCacheControlv_iter d val index with
        | None => None
        | Some (Err err) => Some (Err err)
        | Some (Ok (d', index')) => parseCacheControlv_loop fuel' d' val index'
        end
    end
  else Some (Ok d).

Definition parseCacheControlv {D} `{directive D}
    (d : D) (val : gostring) : option (result D) :=
  parseCacheControlv_loop (length val) d val 0.

(** ** The request side *)

Module Request.

Record RequestCacheDirective : Type := {
  MaxAge : Z;
  MaxStale : Z;
  MinFresh : Z;
  NoCache : bool;
  NoStore : bool;
  OnlyIfCached : bool;
  Extensions : list gostring
}.

Definition with_MaxAge (d : RequestCacheDirective) (x : Z) :=
  {| MaxAge := x; MaxStale := MaxStale d; MinFresh := MinFresh d;
     NoCache := NoCache d; NoStore := NoStore d;
     OnlyIfCached := OnlyIfCached d; Extensions := Extensions d |}.
Definition with_MaxStale (d : RequestCacheDirective) (x : Z) :=
  {| MaxAge := MaxAge d; MaxStale := x; MinFresh := MinFresh d;
     NoCache := NoCache d; NoStore := NoStore d;
     OnlyIfCached := OnlyIfCached d; Extensions := Extensions d |}.
Definition with_MinFresh (d : RequestCacheDirective) (x : Z) :=
  {| MaxAge := MaxAge d; MaxStale := MaxStale d; MinFresh := x;
     NoCache := NoCache d; NoStore := NoStore d;
     OnlyIfCached := OnlyIfCached d; Extensions := Extensions d |}.
Definition with_NoCache (d : RequestCacheDirective) (x : bool) :=
  {| MaxAge := MaxAge d; MaxStale := MaxStale d; MinFresh := MinFresh d;
     NoCache := x; NoStore := NoStore d;
     OnlyIfCached := OnlyIfCached d; Extensions := Extensions d |}.
Definition with_NoStore (d : RequestCacheDirective) (x : bool) :=
  {| MaxAge := MaxAge d; MaxStale := MaxStale d; MinFresh := MinFresh d;
     NoCache := NoCache d; NoStore := x;
     OnlyIfCached := OnlyIfCached d; Extensions := Extensions d |}.
Definition with_OnlyIfCached (d : RequestCacheDirective) (x : bool) :=
  {| MaxAge := MaxAge d; MaxStale := MaxStale d; MinFresh := MinFresh d;
     NoCache := NoCache d; NoStore := NoStore d;
     OnlyIfCached := x; Extensions := Extensions d |}.
Definition with_Extensions (d : RequestCacheDirective) (x : list gostring) :=
  {| MaxAge := MaxAge d; MaxStale := MaxStale d; MinFresh := MinFresh d;
     NoCache := NoCache d; NoStore := NoStore d;
     OnlyIfCached := OnlyIfCached d; Extensions := x |}.

Definition setToken (directive : RequestCacheDirective) (token : gostring)
    : result RequestCacheDirective :=
  if eqs token HeaderMaxAge then Err ErrMaxAgeDeltaSeconds
  else if eqs token HeaderMaxStale then Err ErrMaxStaleDeltaSeconds
  else if eqs token HeaderMinFresh then Err ErrMinFreshDeltaSeconds
  else if eqs token HeaderNoCache then Ok (with_NoCache directive true)
  else if eqs token HeaderNoStore then Ok (with_NoStore directive true)
  else if eqs token HeaderOnlyIfCached then Ok (with_OnlyIfCached directive true)
  else Ok (with_Extensions directive (Extensions directive ++ [token])).

Definition setPair (directive : RequestCacheDirective) (key val : gostring)
    : result RequestCacheDirective :=
  if eqs key HeaderNoCache then Err ErrNoCacheDirectiveValue
  else if eqs key HeaderNoStore then Err ErrNoStoreDirectiveValue
  else if eqs key HeaderOnlyIfCached then Err ErrOnlyIfCachedDirectiveValue
  else if eqs key HeaderMaxAge then
    match validateDeltaSeconds val with
    | (_, Some err) => Err (Wrapf ErrMaxAgeDeltaSeconds err)
    | (deltaSec, None) => Ok (with_MaxAge directive deltaSec)
    end
  else if eqs key HeaderMaxStale then
    match validateDeltaSeconds val with
    | (_, Some err) => Err (Wrapf ErrMaxStaleDeltaSeconds err)
    | (deltaSec, None) => Ok (with_MaxStale directive deltaSec)
    end
  else if eqs key HeaderMinFresh then
    match validateDeltaSeconds val with
    | (_, Some err) => Err (Wrapf ErrMinFreshDeltaSeconds err)
    | (deltaSec, None) => Ok (with_MinFresh directive deltaSec)
    end
  else Ok (with_Extensions directive (Extensions directive ++ [key ++ [EQUALS] ++ val])).

#[global] Instance sink : directive RequestCacheDirective :=
  Build_directive RequestCacheDirective setToken setPair.

(** [&RequestCacheDirective{MaxAge: -1, MaxStale: -1, MinFresh: -1}] *)
Definition initial : RequestCacheDirective :=
  {| MaxAge := -1; MaxStale := -1; MinFresh := -1;
     NoCache := false; NoStore := false; OnlyIfCached := false;
     Extensions := [] |}.

End Request.

Definition NewRequestCacheDirective (value : gostring)
    : option (option Request.RequestCacheDirective * option error) :=
  let directive := Request.initial in
  match parseCacheControlv directive value with
  | None => None
  | Some (Err err) => Some (None, Some err)
  | Some (Ok directive) => Some (Some directive, None)
  end.

(** ** The response side

    A Go [map[string]bool] field that may be [nil] is an optional finite
    map. *)

Module Response.

Record ResponseCacheDirective : Type := {
  MustRevalidate : bool;
  NoCache : option (gmap gostring bool);
  NoCachePresent : bool;
  NoStore : bool;
  NoTransform : bool;
  Public : bool;
  Private : option (gmap gostring bool);
  PrivatePresent : bool;
  ProxyRevalidate : bool;
  MaxAge : Z;
  SMaxAge : Z;
  Immutable : bool;
  StaleIfError : Z;
  StaleWhileRevalidate : Z;
  Extensions : list gostring
}.

Definition with_MustRevalidate (d : ResponseCacheDirective) (x : bool) :=
  {| MustRevalidate := x; NoCache := NoCache d;
     NoCachePresent := NoCachePresent d; NoStore := NoStore d;
     NoTransform := NoTransform d; Public := Public d; Private := Private d;
     PrivatePresent := PrivatePresent d;
     ProxyRevalidate := ProxyRevalidate d; MaxAge := MaxAge d;
     SMaxAge := SMaxAge d; Immutable := Immutable d;
     StaleIfError := StaleIfError d;
     StaleWhileRevalidate := StaleWhileRevalidate d;
     Extensions := Extensions d |}.
Definition with_NoCache (d : ResponseCacheDirective) (x : option (gmap gostring bool)) :=
  {| MustRevalidate := MustRevalidate d; NoCache := x;
     NoCachePresent := NoCachePresent d; NoStore := NoStore d;
     NoTransform := NoTransform d; Public := Public d; Private := Private d;
     PrivatePresent := PrivatePresent d;
     ProxyRevalidate := ProxyRevalidate d; MaxAge := MaxAge d;
     SMaxAge := SMaxAge d; Immutable := Immutable d;
     StaleIfError := StaleIfError d;
     StaleWhileRevalidate := StaleWhileRevalidate d;
     Extensions := Extensions d |}.
Definition with_NoCachePresent (d : ResponseCacheDirective) (x : bool) :=
  {| MustRevalidate := MustRevalidate d; NoCache := NoCache d;
     NoCachePresent := x; NoStore := NoStore d; NoTransform := NoTransform d;
     Public := Public d; Private := Private d;
     PrivatePresent := PrivatePresent d;
     ProxyRevalidate := ProxyRevalidate d; MaxAge := MaxAge d;
     SMaxAge := SMaxAge d; Immutable := Immutable d;
     StaleIfError := StaleIfError d;
     StaleWhileRevalidate := StaleWhileRevalidate d;
     Extensions := Extensions d |}.
Definition with_NoStore (d : ResponseCacheDirective) (x : bool) :=
  {| MustRevalidate := MustRevalidate d; NoCache := NoCache d;
     NoCachePresent := NoCachePresent d; NoStore := x;
     NoTransform := NoTransform d; Public := Public d; Private := Private d;
     PrivatePresent := PrivatePresent d;
     ProxyRevalidate := ProxyRevalidate d; MaxAge := MaxAge d;
     SMaxAge := SMaxAge d; Immutable := Immutable d;
     StaleIfError := StaleIfError d;
     StaleWhileRevalidate := StaleWhileRevalidate d;
     Extensions := Extensions d |}.
Definition with_NoTransform (d : ResponseCacheDirective) (x : bool) :=
  {| MustRevalidate := MustRevalidate d; NoCache := NoCache d;
     NoCachePresent := NoCachePresent d; NoStore := NoStore d;
     NoTransform := x; Public := Public d; Private := Private d;
     PrivatePresent := PrivatePresent d;
     ProxyRevalidate := ProxyRevalidate d; MaxAge := MaxAge d;
     SMaxAge := SMaxAge d; Immutable := Immutable d;
     StaleIfError := StaleIfError d;
     StaleWhileRevalidate := StaleWhileRevalidate d;
     Extensions := Extensions d |}.
Definition with_Public (d : ResponseCacheDirective) (x : bool) :=
  {| MustRevalidate := MustRevalidate d; NoCache := NoCache d;
     NoCachePresent := NoCachePresent d; NoStore := NoStore d;
     NoTransform := NoTransform d; Public := x; Private := Private d;
     PrivatePresent := PrivatePresent d;
     ProxyRevalidate := ProxyRevalidate d; MaxAge := MaxAge d;
     SMaxAge := SMaxAge d; Immutable := Immutable d;
     StaleIfError := StaleIfError d;
     StaleWhileRevalidate := StaleWhileRevalidate d;
     Extensions := Extensions d |}.
Definition with_Private (d : ResponseCacheDirective) (x : option (gmap gostring bool)) :=
  {| MustRevalidate := MustRevalidate d; NoCache := NoCache d;
     NoCachePresent := NoCachePresent d; NoStore := NoStore d;
     NoTransform := NoTransform d; Public := Public d; Private := x;
     PrivatePresent := PrivatePresent d;
     ProxyRevalidate := ProxyRevalidate d; MaxAge := MaxAge d;
     SMaxAge := SMaxAge d; Immutable := Immutable d;
     StaleIfError := StaleIfError d;
     StaleWhileRevalidate := StaleWhileRevalidate d;
     Extensions := Extensions d |}.
Definition with_PrivatePresent (d : ResponseCacheDirective) (x : bool) :=
  {| MustRevalidate := MustRevalidate d; NoCache := NoCache d;
     NoCachePresent := NoCachePresent d; NoStore := NoStore d;
     NoTransform := NoTransform d; Public := Public d; Private := Private d;
     PrivatePresent := x; ProxyRevalidate := ProxyRevalidate d;
     MaxAge := MaxAge d; SMaxAge := SMaxAge d; Immutable := Immutable d;
     StaleIfError := StaleIfError d;
     StaleWhileRevalidate := StaleWhileRevalidate d;
     Extensions := Extensions d |}.
Definition with_ProxyRevalidate (d : ResponseCacheDirective) (x : bool) :=
  {| MustRevalidate := MustRevalidate d; NoCache := NoCache d;
     NoCachePresent := NoCachePresent d; NoStore := NoStore d;
     NoTransform := NoTransform d; Public := Public d; Private := Private d;
     PrivatePresent := PrivatePresent d; ProxyRevalidate := x;
     MaxAge := MaxAge d; SMaxAge := SMaxAge d; Immutable := Immutable d;
     StaleIfError := StaleIfError d;
     StaleWhileRevalidate := StaleWhileRevalidate d;
     Extensions := Extensions d |}.
Definition with_MaxAge (d : ResponseCacheDirective) (x : Z) :=
  {| MustRevalidate := MustRevalidate d; NoCache := NoCache d;
     NoCachePresent := NoCachePresent d; NoStore := NoStore d;
     NoTransform := NoTransform d; Public := Public d; Private := Private d;
     PrivatePresent := PrivatePresent d;
     ProxyRevalidate := ProxyRevalidate d; MaxAge := x; SMaxAge := SMaxAge d;
     Immutable := Immutable d; StaleIfError := StaleIfError d;
     StaleWhileRevalidate := StaleWhileRevalidate d;
     Extensions := Extensions d |}.
Definition with_SMaxAge (d : ResponseCacheDirective) (x : Z) :=
  {| MustRevalidate := MustRevalidate d; NoCache := NoCache d;
     NoCachePresent := NoCachePresent d; NoStore := NoStore d;
     NoTransform := NoTransform d; Public := Public d; Private := Private d;
     PrivatePresent := PrivatePresent d;
     ProxyRevalidate := ProxyRevalidate d; MaxAge := MaxAge d; SMaxAge := x;
     Immutable := Immutable d; StaleIfError := StaleIfError d;
     StaleWhileRevalidate := StaleWhileRevalidate d;
     Extensions := Extensions d |}.
Definition with_Immutable (d : ResponseCacheDirective) (x : bool) :=
  {| MustRevalidate := MustRevalidate d; NoCache := NoCache d;
     NoCachePresent := NoCachePresent d; NoStore := NoStore d;
     NoTransform := NoTransform d; Public := Public d; Private := Private d;
     PrivatePresent := PrivatePresent d;
     ProxyRevalidate := ProxyRevalidate d; MaxAge := MaxAge d;
     SMaxAge := SMaxAge d; Immutable := x; StaleIfError := StaleIfError d;
     StaleWhileRevalidate := StaleWhileRevalidate d;
     Extensions := Extensions d |}.
Definition with_StaleIfError (d : ResponseCacheDirective) (x : Z) :=
  {| MustRevalidate := MustRevalidate d; NoCache := NoCache d;
     NoCachePresent := NoCachePresent d; NoStore := NoStore d;
     NoTransform := NoTransform d; Public := Public d; Private := Private d;
     PrivatePresent := PrivatePresent d;
     ProxyRevalidate := ProxyRevalidate d; MaxAge := MaxAge d;
     SMaxAge := SMaxAge d; Immutable := Immutable d; StaleIfError := x;
     StaleWhileRevalidate := StaleWhileRevalidate d;
     Extensions := Extensions d |}.
Definition with_StaleWhileRevalidate (d : ResponseCacheDirective) (x : Z) :=
  {| MustRevalidate := MustRevalidate d; NoCache := NoCache d;
     NoCachePresent := NoCachePresent d; NoStore := NoStore d;
     NoTransform := NoTransform d; Public := Public d; Private := Private d;
     PrivatePresent := PrivatePresent d;
     ProxyRevalidate := ProxyRevalidate d; MaxAge := MaxAge d;
     SMaxAge := SMaxAge d; Immutable := Immutable d;
     StaleIfError := StaleIfError d; StaleWhileRevalidate := x;
     Extensions := Extensions d |}.
Definition with_Extensions (d : ResponseCacheDirective) (x : list gostring) :=
  {| MustRevalidate := MustRevalidate d; NoCache := NoCache d;
     NoCachePresent := NoCachePresent d; NoStore := NoStore d;
     NoTransform := NoTransform d; Public := Public d; Private := Private d;
     PrivatePresent := PrivatePresent d;
     ProxyRevalidate := ProxyRevalidate d; MaxAge := MaxAge d;
     SMaxAge := SMaxAge d; Immutable := Immutable d;
     StaleIfError := StaleIfError d;
     StaleWhileRevalidate := StaleWhileRevalidate d; Extensions := x |}.

(** The [for _, v := range strings.Split(val, ",")] loop filling a field-name
    map. *)
Definition addFields (m : gmap gostring bool) (val : gostring)
    : gmap gostring bool :=
  foldl (fun m v => <[CanonicalHeaderKey (TrimString v) := true]> m) m (Split val).

(** [if m == nil { m = make(map[string]bool) }] *)
Definition orMake (m : option (gmap gostring bool)) : gmap gostring bool :=
  match m with
  | None => ∅
  | Some m => m
  end.

Definition setToken (directive : ResponseCacheDirective) (token : gostring)
    : result ResponseCacheDirective :=
  if eqs token HeaderMaxAge then Err ErrMaxAgeDeltaSeconds
  else if eqs token HeaderSMaxAge then Err ErrSMaxAgeDeltaSeconds
  else if eqs token HeaderStaleIfError then Err ErrStaleIfErrorDeltaSeconds
  else if eqs token HeaderStaleWhileRevalidate
  then Err ErrStaleWhileRevalidateDeltaSeconds
  else if eqs token HeaderPublic then Ok (with_Public directive true)
  else if eqs token HeaderNoStore then Ok (with_NoStore directive true)
  else if eqs token HeaderImmutable then Ok (with_Immutable directive true)
  else if eqs token HeaderNoTransform then Ok (with_NoTransform directive true)
  else if eqs token HeaderPrivate then Ok (with_PrivatePresent directive true)
  else if eqs token HeaderMustRevalidate
  then Ok (with_MustRevalidate directive true)
  else if eqs token HeaderNoCache then Ok (with_NoCachePresent directive true)
  else if eqs token HeaderProxyRevalidate
  then Ok (with_ProxyRevalidate directive true)
  else Ok (with_Extensions directive (Extensions directive ++ [token])).

Definition setPair (directive : ResponseCacheDirective) (key val : gostring)
    : result ResponseCacheDirective :=
  if eqs key HeaderMustRevalidate then Err ErrMustRevalidateDirectiveValue
  else if eqs key HeaderNoStore then Err ErrNoStoreDirectiveValue
  else if eqs key HeaderNoTransform then Err ErrNoTransformDirectiveValue
  else if eqs key HeaderPublic then Err ErrPublicDirectiveValue
  else if eqs key HeaderProxyRevalidate then Err ErrProxyRevalidateDirectiveValue
  else if eqs key HeaderImmutable then Err ErrImmutableDirectiveValue
  else if eqs key HeaderNoCache then
    let directive := with_NoCachePresent directive true in
    Ok (with_NoCache directive
          (Some (addFields (orMake (NoCache directive)) val)))
  else if eqs key HeaderPrivate then
    let directive := with_PrivatePresent directive true in
    Ok (with_Private directive
          (Some (addFields (orMake (Private directive)) val)))
  else if eqs key HeaderMaxAge then
    match validateDeltaSeconds val with
    | (_, Some err) => Err (Wrapf ErrMaxAgeDeltaSeconds err)
    | (deltaSec, None) => Ok (with_MaxAge directive deltaSec)
    end
  else if eqs key HeaderSMaxAge then
    match validateDeltaSeconds val with
    | (_, Some err) => Err (Wrapf ErrSMaxAgeDeltaSeconds err)
    | (deltaSec, None) => Ok (with_SMaxAge directive deltaSec)
    end
  else if eqs key HeaderStaleIfError then
    match validateDeltaSeconds val with
    | (_, Some err) => Err (Wrapf ErrStaleIfErrorDeltaSeconds err)
    | (deltaSec, None) => Ok (with_StaleIfError directive deltaSec)
    end
  else if eqs key HeaderStaleWhileRevalidate then
    match validateDeltaSeconds val with
    | (_, Some err) => Err (Wrapf ErrStaleWhileRevalidateDeltaSeconds err)
    | (deltaSec, None) => Ok (with_StaleWhileRevalidate directive deltaSec)
    end
  else Ok (with_Extensions directive (Extensions directive ++ [key ++ [EQUALS] ++ val])).

#[global] Instance sink : directive ResponseCacheDirective :=
  Build_directive ResponseCacheDirective setToken setPair.

(** The zero value [&ResponseCacheDirective{}]. *)
Definition zero : ResponseCacheDirective :=
  {| MustRevalidate := false; NoCache := None; NoCachePresent := false;
     NoStore := false; NoTransform := false; Public := false;
     Private := None; PrivatePresent := false; ProxyRevalidate := false;
     MaxAge := 0; SMaxAge := 0; Immutable := false; StaleIfError := 0;
     StaleWhileRevalidate := 0; Extensions := [] |}.

End Response.

Definition NewResponseCacheDirective (value : gostring)
    : option (option Response.ResponseCacheDirective * option error) :=
  let directive := Response.zero in
  match parseCacheControlv directive value with
  | None => None
  | Some (Err err) => Some (None, Some err)
  | Some (Ok directive) => Some (Some directive, None)
  end.

(** ** A recording sink

    A sink that accepts everything and keeps what it was given, in order:
    the deliveries of the tokenizer, independent of any validation table. *)

Inductive delivery : Type :=
| Token (token : gostring)
| Pair (key val : gostring).

Module Trace.

Definition setToken (log : list delivery) (token : gostring)
    : result (list delivery) := Ok (log ++ [Token token]).

Definition setPair (log : list delivery) (key val : gostring)
    : result (list delivery) := Ok (log ++ [Pair key val]).

#[global] Instance sink : directive (list delivery) :=
  Build_directive (list delivery) setToken setPair.

End Trace.

(** ** Vocabulary of the statements *)

(** What one iteration of the tokenizer hands to a sink at [index]: the
    iteration run on the empty recording sink. *)
Definition unitAt (val : gostring) (index : nat)
    : option (result (list delivery * nat)) :=
  parseCacheControlv_iter (D := list delivery) [] val index.

(** The iteration at [index] delivers [x] and moves the scan to [index']. *)
Definition delivers (val : gostring) (index : nat) (x : delivery)
    (index' : nat) : Prop :=
  unitAt val index = Some (Ok ([x], index')).

(** The loop started in state [(d, index)] with exactly the fuel the
    remaining input can use. *)
Definition run {D} `{directive D} (d : D) (val : gostring) (index : nat)
    : option (result D) :=
  parseCacheControlv_loop (length val - index) d val index.

(** The loop, started in [(d, index)], arrives in [(d', index')] after some
    iterations none of which returned an error. *)
Inductive reaches {D} `{directive D} (val : gostring)
    : D -> nat -> D -> nat -> Prop :=
| reaches_here d index : reaches val d index d index
| reaches_iter d index d1 index1 d' index' :
    (index < length val)%nat ->
    parseCacheControlv_iter d val index = Some (Ok (d1, index1)) ->
    reaches val d1 index1 d' index' ->
    reaches val d index d' index'.

(** The body of a quoted value (the bytes after the opening quote) that has
    no closing quote: the input ends first, possibly in the middle of a
    backslash escape. *)
Inductive unterminated : gostring -> Prop :=
| unterminated_end : unterminated []
| unterminated_cut : unterminated [BACKSLASH]
| unterminated_escape c rest :
    unterminated rest -> unterminated (BACKSLASH :: c :: rest)
| unterminated_byte b rest :
    b <> DQUOTE -> b <> BACKSLASH ->
    unterminated rest -> unterminated (b :: rest).

(** Decimal digit strings and their numeric value. *)
Definition isDigit (c : ascii) : bool := (48 <=? code c) && (code c <=? 57).

Definition valueFrom (acc : Z) (n : gostring) : Z :=
  foldl (fun acc c => acc * 10 + (code c - 48)) acc n.

Definition digitsValue (n : gostring) : Z := valueFrom 0 n.

(** The values an age-like field of a request record may hold. *)
Definition ageField (x : Z) : Prop := x = -1 \/ 0 <= x <= MaxInt32.

(** The validation table of the request side as the specification words
    it: the three age directives need a value, the three flags refuse
    one, each with an error of its own. *)
Inductive Request_rejects : delivery -> error -> Prop :=
| rejects_bare_max_age :
    Request_rejects (Token HeaderMaxAge) ErrMaxAgeDeltaSeconds
| rejects_bare_max_stale :
    Request_rejects (Token HeaderMaxStale) ErrMaxStaleDeltaSeconds
| rejects_bare_min_fresh :
    Request_rejects (Token HeaderMinFresh) ErrMinFreshDeltaSeconds
| rejects_valued_no_cache value :
    Request_rejects (Pair HeaderNoCache value) ErrNoCacheDirectiveValue
| rejects_valued_no_store value :
    Request_rejects (Pair HeaderNoStore value) ErrNoStoreDirectiveValue
| rejects_valued_only_if_cached value :
    Request_rejects (Pair HeaderOnlyIfCached value)
      ErrOnlyIfCachedDirectiveValue.

(** At [index] the tokenizer finds a name, ['='] and an opening quote
    followed by [body] up to the end of the input. *)
Definition quotedValueAt (val : gostring) (index : nat) (body : gostring)
    : Prop :=
  let tokenEnd := scanTo tokenStop (drop (index + 1) val) (index + 1) in
  (index < length val)%nat /\
  isWhiteSpace (byteAt val index) || Ascii.eqb (byteAt val index) COMMA = false /\
  (tokenEnd + 1 < length val)%nat /\
  byteAt val tokenEnd = EQUALS /\
  drop (tokenEnd + 1) val = DQUOTE :: body.

Definition agesInRange (d : Request.RequestCacheDirective) : Prop :=
  ageField (Request.MaxAge d) /\ ageField (Request.MaxStale d) /\
  ageField (Request.MinFresh d).

(** The name carried by a delivery. *)
Definition nameOf (x : delivery) : gostring :=
  match x with
  | Token token => token
  | Pair key _ => key
  end.

(** The field names a [no-cache] or [private] value contributes. *)
Definition fieldNames (value : gostring) : list gostring :=
  map (fun v => CanonicalHeaderKey (TrimString v)) (Split value).

(** The optional field-name map [m] holds [k]. *)
Definition hasField (m : option (gmap gostring bool)) (k : gostring) : Prop :=
  exists m', m = Some m' /\ m' !! k = Some true.

(** [strings.Join(ps, ",")], used to state what [Split] returns. *)
Fixpoint joinComma (ps : list gostring) : gostring :=
  match ps with
  | [] => []
  | [p] => p
  | p :: ps' => p ++ COMMA :: joinComma ps'
  end.

(** The body of a quoted value read from left to right: the number of
    bytes up to and including the closing quote, and the unescaped bytes;
    [None] when no closing quote is met. *)
Fixpoint unquoteBody (body : gostring) : option (nat * gostring) :=
  match body with
  | [] => None
  | b :: rest =>
      if Ascii.eqb b DQUOTE then Some (1%nat, [])
      else if Ascii.eqb b BACKSLASH then
        match rest with
        | [] => None
        | c :: rest' =>
            match unquoteBody rest' with
            | Some (n, value) => Some ((2 + n)%nat, unquotePair c :: value)
            | None => None
            end
        end
      else
        match unquoteBody rest with
        | Some (n, value) =>
            Some ((1 + n)%nat, (if isQdText b then b else QUESTION) :: value)
        | None => None
        end
  end.

(** Writing a string as a quoted value: a quote and a backslash are
    preceded by a backslash. *)
Definition escapeByte (c : ascii) : gostring :=
  if Ascii.eqb c DQUOTE || Ascii.eqb c BACKSLASH then [BACKSLASH; c] else [c].

Definition quoteString (s : gostring) : gostring :=
  DQUOTE :: flat_map escapeByte s ++ [DQUOTE].

(** The bytes an unescaped value can hold: text other than the quote, the
    quote itself (from an escape), and the control bytes 7 to 13 (from the
    escapes [a b t n v f r]). *)
Definition unquotedByte (b : ascii) : bool :=
  isQdText b || Ascii.eqb b DQUOTE || ((7 <=? code b) && (code b <=? 13)).

(** What a sink makes of a list of deliveries given to it in order, up to
    its first refusal. *)
Fixpoint replay {D} `{directive D} (d : D) (log : list delivery) : result D :=
  match log with
  | [] => Ok d
  | Token token :: log' =>
      match setToken d token with
      | Ok d' => replay d' log'
      | Err err => Err err
      end
  | Pair key value :: log' =>
      match setPair d key value with
      | Ok d' => replay d' log'
      | Err err => Err err
      end
  end.

(** A byte the tokenizer skips between directives. *)
Definition skipped (c : ascii) : bool := isWhiteSpace c || Ascii.eqb c COMMA.

(** The names with a meaning for the request side and for the response
    side. *)
Definition Request_names : list gostring :=
  [HeaderMaxAge; HeaderMaxStale; HeaderMinFresh;
   HeaderNoCache; HeaderNoStore; HeaderOnlyIfCached].

Definition Response_names : list gostring :=
  [HeaderMaxAge; HeaderSMaxAge; HeaderStaleIfError; HeaderStaleWhileRevalidate;
   HeaderPublic; HeaderNoStore; HeaderImmutable; HeaderNoTransform;
   HeaderPrivate; HeaderMustRevalidate; HeaderNoCache; HeaderProxyRevalidate].

(** A delivery as it is written into [Extensions]. *)
Definition render (x : delivery) : gostring :=
  match x with
  | Token token => token
  | Pair key value => key ++ [EQUALS] ++ value
  end.

(** The value an age field has after the deliveries [log], starting from
    [start]: that of the last pair with this name. *)
Definition lastAge (name : gostring) (start : Z) (log : list delivery) : Z :=
  foldl (fun acc x =>
           match x with
           | Pair key value =>
               if eqs key name then fst (validateDeltaSeconds value) else acc
           | Token _ => acc
           end) start log.


(** The validation table of the response side: four names need a value,
    six refuse one. *)
Inductive Response_rejects : delivery -> error -> Prop :=
| rejects_bare_response_max_age :
    Response_rejects (Token HeaderMaxAge) ErrMaxAgeDeltaSeconds
| rejects_bare_s_maxage :
    Response_rejects (Token HeaderSMaxAge) ErrSMaxAgeDeltaSeconds
| rejects_bare_stale_if_error :
    Response_rejects (Token HeaderStaleIfError) ErrStaleIfErrorDeltaSeconds
| rejects_bare_stale_while_revalidate :
    Response_rejects (Token HeaderStaleWhileRevalidate)
      ErrStaleWhileRevalidateDeltaSeconds
| rejects_valued_must_revalidate value :
    Response_rejects (Pair HeaderMustRevalidate value)
      ErrMustRevalidateDirectiveValue
| rejects_valued_response_no_store value :
    Response_rejects (Pair HeaderNoStore value) ErrNoStoreDirectiveValue
| rejects_valued_no_transform value :
    Response_rejects (Pair HeaderNoTransform value)
      ErrNoTransformDirectiveValue
| rejects_valued_public value :
    Response_rejects (Pair HeaderPublic value) ErrPublicDirectiveValue
| rejects_valued_proxy_revalidate value :
    Response_rejects (Pair HeaderProxyRevalidate value)
      ErrProxyRevalidateDirectiveValue
| rejects_valued_immutable value :
    Response_rejects (Pair HeaderImmutable value) ErrImmutableDirectiveValue.

(** The names that carry delta-seconds, with the error each wraps a
    malformed value in. *)
Inductive Request_age : gostring -> error -> Prop :=
| age_request_max_age : Request_age HeaderMaxAge ErrMaxAgeDeltaSeconds
| age_request_max_stale : Request_age HeaderMaxStale ErrMaxStaleDeltaSeconds
| age_request_min_fresh : Request_age HeaderMinFresh ErrMinFreshDeltaSeconds.

Inductive Response_age : gostring -> error -> Prop :=
| age_response_max_age : Response_age HeaderMaxAge ErrMaxAgeDeltaSeconds
| age_response_s_maxage : Response_age HeaderSMaxAge ErrSMaxAgeDeltaSeconds
| age_response_stale_if_error :
    Response_age HeaderStaleIfError ErrStaleIfErrorDeltaSeconds
| age_response_stale_while_revalidate :
    Response_age HeaderStaleWhileRevalidate
      ErrStaleWhileRevalidateDeltaSeconds.

(** The range of the four age fields of a response record. *)
Definition Response_agesInRange (d : Response.ResponseCacheDirective) : Prop :=
  0 <= Response.MaxAge d <= MaxInt32 /\
  0 <= Response.SMaxAge d <= MaxInt32 /\
  0 <= Response.StaleIfError d <= MaxInt32 /\
  0 <= Response.StaleWhileRevalidate d <= MaxInt32.

(** How one delivery changes a field of the response record: a flag, a
    presence flag, the extension list, a field-name map. *)
Definition flagStep (name : gostring) (acc : bool) (x : delivery) : bool :=
  match x with
  | Token token => acc || eqs token name
  | Pair _ _ => acc
  end.

Definition presentStep (name : gostring) (acc : bool) (x : delivery) : bool :=
  acc || eqs (nameOf x) name.

Definition extensionStep (names : list gostring) (acc : list gostring)
    (x : delivery) : list gostring :=
  if bool_decide (nameOf x ∈ names) then acc else acc ++ [render x].

Definition ageStep (name : gostring) (acc : Z) (x : delivery) : Z :=
  match x with
  | Pair key value =>
      if eqs key name then fst (validateDeltaSeconds value) else acc
  | Token _ => acc
  end.

Definition fieldStep (name : gostring) (acc : option (gmap gostring bool))
    (x : delivery) : option (gmap gostring bool) :=
  match x with
  | Pair key value =>
      if eqs key name then Some (Response.addFields (Response.orMake acc) value)
      else acc
  | Token _ => acc
  end.

(** ** Tactics *)

(** A fact about one byte, checked on each of the 256 bytes. *)
Ltac by_byte c :=
  destruct c as [[] [] [] [] [] [] [] []]; vm_compute; try done.

(** [reaches] on closed terms, by running the iterations. *)
Ltac reaches_by_computation :=
  first
    [ apply reaches_here
    | eapply reaches_iter;
      [simpl; lia|vm_compute; reflexivity|reaches_by_computation] ].


(** * Properties *)

(** ** Bytes, slices and scans *)

Lemma ascii_eqb_eq (a b : ascii) : Ascii.eqb a b = true <-> a = b.
Proof. apply Ascii.eqb_eq. Qed.

Lemma ascii_eqb_neq (a b : ascii) : Ascii.eqb a b = false <-> a <> b.
Proof. apply Ascii.eqb_neq. Qed.

Lemma eqs_true (a b : gostring) : eqs a b = true <-> a = b.
Proof. unfold eqs. apply bool_decide_eq_true. Qed.

Lemma eqs_false (a b : gostring) : eqs a b = false <-> a <> b.
Proof. unfold eqs. apply bool_decide_eq_false. Qed.

Lemma byteAt_drop (s : gostring) (n i : nat) :
  byteAt (drop n s) i = byteAt s (n + i).
Proof. unfold byteAt. apply nth_skipn. Qed.

Lemma byteAt_app_r (s t : gostring) (i : nat) :
  (length s <= i)%nat -> byteAt (s ++ t) i = byteAt t (i - length s).
Proof. intros Hi. unfold byteAt. by apply app_nth2. Qed.

Lemma drop_byteAt (s rest : gostring) (i : nat) (b : ascii) :
  drop i s = b :: rest ->
  byteAt s i = b /\ (i < length s)%nat /\ drop (S i) s = rest.
Proof.
  intros Hd. split; [|split].
  - replace i with (i + 0)%nat by lia.
    rewrite <- byteAt_drop, Hd. reflexivity.
  - destruct (decide (i < length s)%nat) as [|Hge]; [done|].
    rewrite drop_ge in Hd by lia. discriminate.
  - replace (S i) with (i + 1)%nat by lia.
    rewrite <- drop_drop, Hd. reflexivity.
Qed.

Lemma slice_full_suffix (s : gostring) (lo : nat) :
  slice s lo (length s) = drop lo s.
Proof.
  unfold slice. apply take_ge. rewrite length_drop. lia.
Qed.

(** The scan stops at the first stopping byte or at the end of the input,
    and never before. *)
Lemma scanTo_rest (stop : ascii -> bool) (rest : gostring) (pos : nat) :
  let r := scanTo stop rest pos in
  (pos <= r <= pos + length rest)%nat /\
  (forall k, (k < r - pos)%nat -> stop (byteAt rest k) = false) /\
  ((r < pos + length rest)%nat -> stop (byteAt rest (r - pos)) = true).
Proof.
  revert pos. induction rest as [|c rest IH]; intros pos; simpl.
  - split; [lia|]. split; intros; lia.
  - destruct (stop c) eqn:Hc.
    + split; [lia|]. split.
      * intros k Hk. lia.
      * intros _. replace (pos - pos)%nat with 0%nat by lia. exact Hc.
    + destruct (IH (S pos)) as (Hr & Hbefore & Hat).
      split; [lia|]. split.
      * intros k Hk. destruct k as [|k]; [exact Hc|].
        apply Hbefore. lia.
      * intros Hlt.
        replace (scanTo stop rest (S pos) - pos)%nat
          with (S (scanTo stop rest (S pos) - S pos)) by lia.
        apply Hat. lia.
Qed.

Lemma scanTo_spec (stop : ascii -> bool) (val : gostring) (pos : nat) :
  (pos <= length val)%nat ->
  let r := scanTo stop (drop pos val) pos in
  (pos <= r <= length val)%nat /\
  (forall j, (pos <= j < r)%nat -> stop (byteAt val j) = false) /\
  ((r < length val)%nat -> stop (byteAt val r) = true).
Proof.
  intros Hpos r.
  destruct (scanTo_rest stop (drop pos val) pos) as (Hr & Hbefore & Hat).
  fold r in Hr, Hbefore, Hat. rewrite length_drop in Hr, Hat.
  split; [lia|]. split.
  - intros j Hj. specialize (Hbefore (j - pos)%nat).
    rewrite byteAt_drop in Hbefore.
    replace (pos + (j - pos))%nat with j in Hbefore by lia.
    apply Hbefore. lia.
  - intros Hlt. rewrite byteAt_drop in Hat.
    replace (pos + (r - pos))%nat with r in Hat by lia.
    apply Hat. lia.
Qed.

Lemma scanTo_all (stop : ascii -> bool) (rest : gostring) (pos : nat) :
  Forall (fun c => stop c = false) rest ->
  scanTo stop rest pos = (pos + length rest)%nat.
Proof.
  revert pos. induction rest as [|c rest IH]; intros pos Hall; simpl.
  - lia.
  - inversion Hall as [|? ? Hc Hrest]; subst. rewrite Hc, IH by done. lia.
Qed.

Lemma scanTo_app_stop (stop : ascii -> bool) (pre rest : gostring)
    (c : ascii) (pos : nat) :
  Forall (fun c => stop c = false) pre -> stop c = true ->
  scanTo stop (pre ++ c :: rest) pos = (pos + length pre)%nat.
Proof.
  revert pos. induction pre as [|a pre IH]; intros pos Hall Hc; simpl.
  - rewrite Hc. lia.
  - inversion Hall as [|? ? Ha Hpre]; subst. rewrite Ha, IH by done. lia.
Qed.

(** ** The quoted-string scanner: termination, bounds, failure *)

Lemma parseQuotedString_loop_total (fuel : nat) (raw buf : gostring)
    (bufIdx i : nat) :
  (length raw - i <= fuel)%nat ->
  exists r, parseQuotedString_loop fuel raw buf bufIdx i = Some r.
Proof.
  revert buf bufIdx i.
  induction fuel as [|fuel IH]; intros buf bufIdx i Hfuel; simpl;
    destruct (Nat.ltb_spec i (length raw)) as [Hlt|Hge]; eauto; try lia.
  destruct (Ascii.eqb (byteAt raw i) DQUOTE); [eauto|].
  destruct (Ascii.eqb (byteAt raw i) BACKSLASH).
  - destruct (Nat.ltb_spec (length raw) (i + 2)); [eauto|].
    apply IH. lia.
  - apply IH. lia.
Qed.

Lemma parseQuotedString_loop_bounds (fuel : nat) (raw buf : gostring)
    (bufIdx i : nat) (eaten : Z) (value : gostring) :
  parseQuotedString_loop fuel raw buf bufIdx i = Some (eaten, value) ->
  eaten = -1 \/ Z.of_nat i + 1 <= eaten <= Z.of_nat (length raw).
Proof.
  revert buf bufIdx i.
  induction fuel as [|fuel IH]; intros buf bufIdx i; simpl;
    destruct (Nat.ltb_spec i (length raw)) as [Hlt|Hge];
    try (intros [= <- <-]; by left); try discriminate.
  destruct (Ascii.eqb (byteAt raw i) DQUOTE).
  { intros [= <- <-]. right. lia. }
  destruct (Ascii.eqb (byteAt raw i) BACKSLASH).
  - destruct (Nat.ltb_spec (length raw) (i + 2)).
    + intros [= <- <-]. by left.
    + intros Hrec. apply IH in Hrec. lia.
  - intros Hrec. apply IH in Hrec. lia.
Qed.

Lemma parseQuotedString_total (raw : gostring) :
  exists r, parseQuotedString raw = Some r.
Proof.
  unfold parseQuotedString.
  destruct (negb (Ascii.eqb (byteAt raw 0) DQUOTE)); [eauto|].
  apply parseQuotedString_loop_total. lia.
Qed.

Lemma parseQuotedString_bounds (raw : gostring) (eaten : Z) (value : gostring) :
  parseQuotedString raw = Some (eaten, value) ->
  eaten = -1 \/ 2 <= eaten <= Z.of_nat (length raw).
Proof.
  unfold parseQuotedString.
  destruct (negb (Ascii.eqb (byteAt raw 0) DQUOTE)).
  - intros [= <- <-]. by left.
  - intros Hloop. apply parseQuotedString_loop_bounds in Hloop. lia.
Qed.

Lemma parseQuotedString_loop_unterminated (body : gostring) :
  unterminated body ->
  forall fuel raw buf bufIdx i,
    drop i raw = body -> (length raw - i <= fuel)%nat ->
    parseQuotedString_loop fuel raw buf bufIdx i = Some (-1, []).
Proof.
  induction 1 as [| |c rest Hrest IH|b rest Hq Hb Hrest IH];
    intros fuel raw buf bufIdx i Hdrop Hfuel.
  - apply drop_nil_inv in Hdrop.
    destruct fuel; simpl; destruct (Nat.ltb_spec i (length raw)); done || lia.
  - apply drop_byteAt in Hdrop as (Hb & Hlt & Hnext).
    apply drop_nil_inv in Hnext.
    destruct fuel as [|fuel]; [lia|]. simpl.
    destruct (Nat.ltb_spec i (length raw)); [|lia].
    rewrite Hb. simpl.
    destruct (Nat.ltb_spec (length raw) (i + 2)); [done|lia].
  - apply drop_byteAt in Hdrop as (Hb & Hlt & Hnext).
    apply drop_byteAt in Hnext as (_ & Hlt' & Hnext).
    destruct fuel as [|fuel]; [lia|]. simpl.
    destruct (Nat.ltb_spec i (length raw)); [|lia].
    rewrite Hb. simpl.
    destruct (Nat.ltb_spec (length raw) (i + 2)); [lia|].
    apply IH; [|lia].
    replace (i + 1 + 1)%nat with (S (S i)) by lia. exact Hnext.
  - apply drop_byteAt in Hdrop as (Hbi & Hlt & Hnext).
    destruct fuel as [|fuel]; [lia|]. simpl.
    destruct (Nat.ltb_spec i (length raw)); [|lia].
    rewrite Hbi.
    apply ascii_eqb_neq in Hq, Hb. rewrite Hq, Hb.
    apply IH; [|lia].
    replace (i + 1)%nat with (S i) by lia. exact Hnext.
Qed.

Lemma parseQuotedString_loop_failure (fuel : nat) (raw buf : gostring)
    (bufIdx i : nat) (value : gostring) :
  parseQuotedString_loop fuel raw buf bufIdx i = Some (-1, value) ->
  unterminated (drop i raw).
Proof.
  revert buf bufIdx i.
  induction fuel as [|fuel IH]; intros buf bufIdx i; simpl;
    destruct (Nat.ltb_spec i (length raw)) as [Hlt|Hge];
    try discriminate;
    try (intros _; rewrite drop_ge by lia; constructor).
  destruct (lookup_lt_is_Some_2 raw i Hlt) as [b Hb].
  rewrite (drop_S _ _ _ Hb).
  assert (byteAt raw i = b) as ->.
  { unfold byteAt. by apply nth_lookup_Some with (d := zero) in Hb. }
  destruct (Ascii.eqb b DQUOTE) eqn:Hq.
  { intros [= Hneg _]. lia. }
  destruct (Ascii.eqb b BACKSLASH) eqn:Hbs.
  - apply ascii_eqb_eq in Hbs as ->.
    destruct (Nat.ltb_spec (length raw) (i + 2)) as [Hcut|Hmore].
    + intros _. rewrite drop_ge by lia. constructor.
    + intros Hrec. apply IH in Hrec.
      assert (S i < length raw)%nat as Hlt' by lia.
      destruct (lookup_lt_is_Some_2 raw (S i) Hlt') as [c Hc].
      rewrite (drop_S _ _ _ Hc).
      replace (i + 1 + 1)%nat with (S (S i)) in Hrec by lia.
      by constructor.
  - intros Hrec. apply IH in Hrec.
    replace (i + 1)%nat with (S i) in Hrec by lia.
    apply ascii_eqb_neq in Hq, Hbs.
    by constructor.
Qed.

Lemma parseQuotedString_quoted (body : gostring) :
  parseQuotedString (DQUOTE :: body) =
  parseQuotedString_loop (length (DQUOTE :: body)) (DQUOTE :: body)
    (replicate (length (DQUOTE :: body)) zero) 0 1.
Proof. reflexivity. Qed.

(** The scanner fails on a quoted value exactly when its body is
    unterminated. *)
Lemma parseQuotedString_fails_iff (body : gostring) :
  (exists value, parseQuotedString (DQUOTE :: body) = Some (-1, value)) <->
  unterminated body.
Proof.
  rewrite parseQuotedString_quoted. split.
  - intros [value Hloop]. by apply parseQuotedString_loop_failure in Hloop.
  - intros Hbody. exists [].
    eapply parseQuotedString_loop_unterminated; [exact Hbody|done|lia].
Qed.

Lemma unterminated_no_quote (body : gostring) :
  DQUOTE ∉ body -> unterminated body.
Proof.
  induction body as [body IH] using (induction_ltof1 _ (@length ascii)).
  unfold ltof in IH. intros Hq.
  destruct body as [|b body]; [constructor|].
  apply not_elem_of_cons in Hq as [Hb Hq].
  destruct (decide (b = BACKSLASH)) as [->|Hbs].
  - destruct body as [|c body]; [constructor|].
    apply not_elem_of_cons in Hq as [_ Hq].
    constructor. apply IH; [simpl; lia|done].
  - constructor; [done|done|]. apply IH; [simpl; lia|done].
Qed.

(** ** One iteration of the tokenizer *)

Section Iteration.
Context {D : Type} `{directive D}.

Lemma tokenEnd_bounds (val : gostring) (index : nat) :
  (index < length val)%nat ->
  let tokenEnd := scanTo tokenStop (drop (index + 1) val) (index + 1) in
  (index + 1 <= tokenEnd <= length val)%nat /\
  (forall j, (index + 1 <= j < tokenEnd)%nat -> isToken (byteAt val j) = true) /\
  ((tokenEnd < length val)%nat -> isToken (byteAt val tokenEnd) = false).
Proof.
  intros Hlt tokenEnd.
  destruct (scanTo_spec tokenStop val (index + 1)) as (Hr & Hbefore & Hat);
    [lia|].
  fold tokenEnd in Hr, Hbefore, Hat. unfold tokenStop in Hbefore, Hat.
  split; [lia|]. split.
  - intros j Hj. apply negb_false_iff. by apply Hbefore.
  - intros Hend. apply negb_true_iff. by apply Hat.
Qed.

(** Every iteration returns: the quoted-string scan never runs out of
    fuel. *)
Lemma parseCacheControlv_iter_total (d : D) (val : gostring) (index : nat) :
  exists r, parseCacheControlv_iter d val index = Some r.
Proof.
  unfold parseCacheControlv_iter.
  destruct (_ || _); [eauto|].
  destruct (_ && _).
  - destruct (_ && _).
    + destruct (parseQuotedString_total
                  (drop (scanTo tokenStop (drop (index + 1) val) (index + 1) + 1) val))
        as [[eaten value] ->].
      destruct (eaten =? -1); [eauto|].
      destruct (setPair _ _ _); eauto.
    + destruct (setPair _ _ _); eauto.
  - destruct (negb _); [|eauto].
    destruct (setToken _ _); eauto.
Qed.

(** An iteration that does not return an error moves the scan position
    strictly forward and never past the end of the input. *)
Lemma parseCacheControlv_iter_progress (d d' : D) (val : gostring)
    (index index' : nat) :
  (index < length val)%nat ->
  parseCacheControlv_iter d val index = Some (Ok (d', index')) ->
  (index < index' <= length val)%nat.
Proof.
  intros Hlt. unfold parseCacheControlv_iter.
  destruct (tokenEnd_bounds val index Hlt) as (HtokenEnd & _ & _).
  set (tokenEnd := scanTo tokenStop (drop (index + 1) val) (index + 1)) in *.
  destruct (_ || _).
  { intros [= _ <-]. lia. }
  destruct (Nat.ltb_spec (tokenEnd + 1) (length val)) as [Hmore|Hlast]; simpl.
  - destruct (Ascii.eqb (byteAt val tokenEnd) EQUALS); simpl.
    + destruct (Ascii.eqb (byteAt val (tokenEnd + 1)) DQUOTE); simpl.
      * destruct (parseQuotedString (drop (tokenEnd + 1) val))
          as [[eaten value]|] eqn:Hq; [|discriminate].
        apply parseQuotedString_bounds in Hq. rewrite length_drop in Hq.
        destruct (Z.eqb_spec eaten (-1)); [discriminate|].
        destruct (setPair _ _ _); [|discriminate].
        intros [= _ <-]. lia.
      * match goal with
        | |- context [scanTo (valueStop ?r) ?l ?p] =>
            destruct (scanTo_spec (valueStop r) val (tokenEnd + 1))
              as (HvalueEnd & _ & _); [lia|]
        end.
        destruct (setPair _ _ _); [|discriminate].
        intros [= _ <-]. lia.
    + destruct (negb _).
      * destruct (setToken _ _); [|discriminate]. intros [= _ <-]. lia.
      * intros [= _ <-]. lia.
  - destruct (negb _).
    + destruct (setToken _ _); [|discriminate]. intros [= _ <-]. lia.
    + intros [= _ <-]. lia.
Qed.

(** A property of the sink that both sink operations keep is kept by an
    iteration. *)
Lemma parseCacheControlv_iter_invariant (P : D -> Prop) (d d' : D)
    (val : gostring) (index index' : nat) :
  (forall d token d', P d -> setToken d token = Ok d' -> P d') ->
  (forall d key value d', P d -> setPair d key value = Ok d' -> P d') ->
  P d ->
  parseCacheControlv_iter d val index = Some (Ok (d', index')) ->
  P d'.
Proof.
  intros Htoken Hpair Hd. unfold parseCacheControlv_iter.
  destruct (_ || _).
  { by intros [= <- _]. }
  destruct (_ && _).
  - destruct (_ && _).
    + destruct (parseQuotedString _) as [[eaten value]|]; [|discriminate].
      destruct (eaten =? -1); [discriminate|].
      destruct (setPair _ _ _) eqn:Hset; [|discriminate].
      intros [= <- _]. eauto.
    + destruct (setPair _ _ _) eqn:Hset; [|discriminate].
      intros [= <- _]. eauto.
  - destruct (negb _).
    + destruct (setToken _ _) eqn:Hset; [|discriminate].
      intros [= <- _]. eauto.
    + by intros [= <- _].
Qed.

(** The iteration on an arbitrary sink is the iteration on the recording
    sink followed by the sink operation on what was delivered. *)
Lemma parseCacheControlv_iter_unitAt (d : D) (val : gostring) (index : nat) :
  parseCacheControlv_iter d val index =
  match unitAt val index with
  | None => None
  | Some (Err err) => Some (Err err)
  | Some (Ok ([], index')) => Some (Ok (d, index'))
  | Some (Ok ([Token token], index')) =>
      match setToken d token with
      | Err err => Some (Err err)
      | Ok d' => Some (Ok (d', index'))
      end
  | Some (Ok ([Pair key value], index')) =>
      match setPair d key value with
      | Err err => Some (Err err)
      | Ok d' => Some (Ok (d', index'))
      end
  | Some (Ok (_, _)) => None
  end.
Proof.
  unfold unitAt, parseCacheControlv_iter.
  destruct (_ || _); [done|].
  destruct (_ && _).
  - destruct (_ && _).
    + destruct (parseQuotedString _) as [[eaten value]|]; [|done].
      destruct (eaten =? -1); done.
    + done.
  - destruct (negb _); done.
Qed.

End Iteration.

(** ** The loop of the tokenizer *)

Section Loop.
Context {D : Type} `{directive D}.

Lemma parseCacheControlv_loop_done (fuel : nat) (d : D) (val : gostring)
    (index : nat) :
  (length val <= index)%nat ->
  parseCacheControlv_loop fuel d val index = Some (Ok d).
Proof.
  intros Hge.
  destruct fuel; simpl; destruct (Nat.ltb_spec index (length val)); done || lia.
Qed.

(** With at least [length val - index] units of fuel the loop returns. *)
Lemma parseCacheControlv_loop_total (fuel : nat) (d : D) (val : gostring)
    (index : nat) :
  (length val - index <= fuel)%nat ->
  exists r, parseCacheControlv_loop fuel d val index = Some r.
Proof.
  revert d index.
  induction fuel as [|fuel IH]; intros d index Hfuel; simpl;
    destruct (Nat.ltb_spec index (length val)) as [Hlt|Hge]; eauto; try lia.
  destruct (parseCacheControlv_iter_total d val index) as [[[d' index']|err] Hit];
    rewrite Hit; [|eauto].
  apply parseCacheControlv_iter_progress in Hit; [|done].
  apply IH. lia.
Qed.

(** Fuel beyond [length val - index] changes nothing. *)
Lemma parseCacheControlv_loop_fuel (fuel1 fuel2 : nat) (d : D)
    (val : gostring) (index : nat) :
  (length val - index <= fuel1)%nat -> (length val - index <= fuel2)%nat ->
  parseCacheControlv_loop fuel1 d val index =
  parseCacheControlv_loop fuel2 d val index.
Proof.
  revert fuel2 d index.
  induction fuel1 as [|fuel1 IH]; intros fuel2 d index Hfuel1 Hfuel2.
  - rewrite !parseCacheControlv_loop_done by lia. reflexivity.
  - destruct (decide (index < length val)%nat) as [Hlt|Hge].
    + destruct fuel2 as [|fuel2]; [lia|]. simpl.
      destruct (Nat.ltb_spec index (length val)); [|lia].
      destruct (parseCacheControlv_iter d val index)
        as [[[d' index']|err]|] eqn:Hit; [|done|done].
      apply parseCacheControlv_iter_progress in Hit; [|done].
      apply IH; lia.
    + rewrite !parseCacheControlv_loop_done by lia. reflexivity.
Qed.

Lemma parseCacheControlv_run (d : D) (val : gostring) :
  parseCacheControlv d val = run d val 0.
Proof.
  unfold parseCacheControlv, run. apply parseCacheControlv_loop_fuel; lia.
Qed.

Lemma run_done (d : D) (val : gostring) (index : nat) :
  (length val <= index)%nat -> run d val index = Some (Ok d).
Proof. apply parseCacheControlv_loop_done. Qed.

Lemma run_iter_ok (d d' : D) (val : gostring) (index index' : nat) :
  (index < length val)%nat ->
  parseCacheControlv_iter d val index = Some (Ok (d', index')) ->
  run d val index = run d' val index'.
Proof.
  intros Hlt Hit. unfold run.
  destruct (length val - index)%nat as [|fuel] eqn:Hfuel; [lia|]. simpl.
  destruct (Nat.ltb_spec index (length val)); [|lia].
  rewrite Hit.
  apply parseCacheControlv_iter_progress in Hit; [|done].
  apply parseCacheControlv_loop_fuel; lia.
Qed.

Lemma run_iter_err (d : D) (val : gostring) (index : nat) (err : error) :
  (index < length val)%nat ->
  parseCacheControlv_iter d val index = Some (Err err) ->
  run d val index = Some (Err err).
Proof.
  intros Hlt Hit. unfold run.
  destruct (length val - index)%nat as [|fuel] eqn:Hfuel; [lia|]. simpl.
  destruct (Nat.ltb_spec index (length val)); [|lia].
  by rewrite Hit.
Qed.

Lemma run_reaches (d d' : D) (val : gostring) (index index' : nat) :
  reaches val d index d' index' -> run d val index = run d' val index'.
Proof.
  induction 1 as [|d index d1 index1 d' index' Hlt Hit _ IH]; [done|].
  rewrite <- IH. by apply run_iter_ok.
Qed.

(** A successful run ends in a state the loop reaches, at the end of the
    input. *)
Lemma run_ok_reaches (d d' : D) (val : gostring) (index : nat) :
  (index <= length val)%nat ->
  run d val index = Some (Ok d') ->
  reaches val d index d' (length val).
Proof.
  remember (length val - index)%nat as n eqn:Hn.
  revert d index Hn.
  induction n as [n IH] using lt_wf_ind. intros d index Hn Hle Hrun.
  destruct (decide (index < length val)%nat) as [Hlt|Hge].
  - destruct (parseCacheControlv_iter_total d val index)
      as [[[d1 index1]|err] Hit].
    + pose proof (parseCacheControlv_iter_progress _ _ _ _ _ Hlt Hit).
      rewrite (run_iter_ok _ _ _ _ _ Hlt Hit) in Hrun.
      eapply reaches_iter; [done|exact Hit|].
      eapply IH; [|reflexivity|lia|exact Hrun]. lia.
    + rewrite (run_iter_err _ _ _ _ Hlt Hit) in Hrun. discriminate.
  - rewrite run_done in Hrun by lia. injection Hrun as <-.
    replace index with (length val) by lia. constructor.
Qed.

(** A property of the sink kept by both sink operations holds along the
    whole scan. *)
Lemma reaches_invariant (P : D -> Prop) (d d' : D) (val : gostring)
    (index index' : nat) :
  (forall d token d', P d -> setToken d token = Ok d' -> P d') ->
  (forall d key value d', P d -> setPair d key value = Ok d' -> P d') ->
  reaches val d index d' index' -> P d -> P d'.
Proof.
  intros Htoken Hpair.
  induction 1 as [|d index d1 index1 d' index' Hlt Hit _ IH]; [done|].
  intros Hd. apply IH.
  eapply parseCacheControlv_iter_invariant; eauto.
Qed.

Lemma parseCacheControlv_invariant (P : D -> Prop) (d d' : D)
    (val : gostring) :
  (forall d token d', P d -> setToken d token = Ok d' -> P d') ->
  (forall d key value d', P d -> setPair d key value = Ok d' -> P d') ->
  P d -> parseCacheControlv d val = Some (Ok d') -> P d'.
Proof.
  intros Htoken Hpair Hd Hrun. rewrite parseCacheControlv_run in Hrun.
  apply run_ok_reaches in Hrun; [|lia].
  eapply reaches_invariant; eauto.
Qed.

End Loop.

(** ** Delta-seconds *)

Lemma isDigit_digitOf (c : ascii) :
  isDigit c = true -> digitOf c = Some (code c - 48) /\ 0 <= code c - 48 <= 9.
Proof.
  unfold isDigit, digitOf. intros Hc. rewrite Hc.
  apply andb_true_iff in Hc as [Hlo Hhi]. split; [done|lia].
Qed.

Lemma valueFrom_ge (acc : Z) (n : gostring) :
  Forall (fun c => isDigit c = true) n -> 0 <= acc -> acc <= valueFrom acc n.
Proof.
  revert acc. induction n as [|c n IH]; intros acc Hall Hacc; simpl; [lia|].
  inversion Hall as [|? ? Hc Hn]; subst.
  apply isDigit_digitOf in Hc as [_ Hd].
  pose proof (IH (acc * 10 + (code c - 48)) Hn ltac:(lia)). lia.
Qed.

Lemma digitsValue_nonneg (n : gostring) :
  Forall (fun c => isDigit c = true) n -> 0 <= digitsValue n.
Proof. intros Hall. by apply (valueFrom_ge 0 n). Qed.

Lemma ParseUint_loop_digits (s0 s : gostring) (n : Z) :
  Forall (fun c => isDigit c = true) s -> 0 <= n <= 4294967295 ->
  ParseUint_loop s0 10 (maxUint64 / 10 + 1) (2 ^ 32 - 1) s n =
  if valueFrom n s <=? 4294967295 then (valueFrom n s, None)
  else (4294967295, Some (NumError s0 ErrRange)).
Proof.
  change (maxUint64 / 10 + 1) with 1844674407370955162.
  change (2 ^ 32 - 1) with 4294967295.
  revert n. induction s as [|c s IH]; intros n Hall Hn.
  - simpl. destruct (Z.leb_spec n 4294967295); [done|lia].
  - inversion Hall as [|? ? Hc Hs]; subst.
    destruct (isDigit_digitOf c Hc) as [Hdigit Hd].
    cbn [ParseUint_loop valueFrom foldl]. rewrite Hdigit.
    destruct (Z.geb_spec (code c - 48) 10); [lia|].
    destruct (Z.geb_spec n 1844674407370955162); [lia|].
    change (2 ^ 64) with 18446744073709551616.
    rewrite (Z.mod_small (n * 10)) by lia.
    rewrite (Z.mod_small (n * 10 + (code c - 48))) by lia.
    destruct (Z.ltb_spec (n * 10 + (code c - 48)) (n * 10)); [lia|].
    cbn [orb].
    fold (valueFrom (n * 10 + (code c - 48)) s).
    destruct (Z.gtb_spec (n * 10 + (code c - 48)) 4294967295) as [Hover|Hfit].
    + pose proof (valueFrom_ge (n * 10 + (code c - 48)) s Hs ltac:(lia)).
      destruct (Z.leb_spec (valueFrom (n * 10 + (code c - 48)) s) 4294967295);
        [lia|done].
    + apply IH; [done|lia].
Qed.

(** On a non-empty string of decimal digits the validator never fails: it
    returns the value, saturated at [MaxInt32]. *)
Lemma validateDeltaSeconds_digits (n : gostring) :
  n <> [] -> Forall (fun c => isDigit c = true) n ->
  validateDeltaSeconds n = (Z.min (digitsValue n) MaxInt32, None).
Proof.
  intros Hne Hall. unfold validateDeltaSeconds, ParseUint.
  destruct n as [|c n]; [done|].
  rewrite ParseUint_loop_digits by (done || lia).
  fold (digitsValue (c :: n)).
  pose proof (digitsValue_nonneg (c :: n) Hall) as Hpos.
  unfold MaxInt32.
  destruct (Z.leb_spec (digitsValue (c :: n)) 4294967295) as [Hfit|Hover].
  - destruct (Z.gtb_spec (digitsValue (c :: n)) 2147483647).
    + by rewrite Z.min_r by lia.
    + rewrite Z.min_l by lia. unfold int32.
      change (2 ^ 32) with 4294967296. change (2 ^ 31) with 2147483648.
      rewrite Z.mod_small by lia.
      destruct (Z.ltb_spec (digitsValue (c :: n)) 2147483648); [done|lia].
  - by rewrite Z.min_r by lia.
Qed.

(** Whatever the input, a value returned without error is in the range of
    a non-negative [int32]. *)
Lemma validateDeltaSeconds_range (delta : gostring) (x : Z) :
  validateDeltaSeconds delta = (x, None) -> 0 <= x <= MaxInt32.
Proof.
  unfold validateDeltaSeconds.
  assert (forall s n, 0 <= n <= 4294967295 ->
            forall r, ParseUint_loop delta 10 (maxUint64 / 10 + 1) (2 ^ 32 - 1) s n
                      = (r, None) -> 0 <= r <= 4294967295) as Hloop.
  { change (maxUint64 / 10 + 1) with 1844674407370955162.
    change (2 ^ 32 - 1) with 4294967295.
    induction s as [|c s IH]; intros n Hn r; cbn [ParseUint_loop].
    - intros [= <-]. lia.
    - destruct (digitOf c) as [d|]; [|discriminate].
      destruct (d >=? 10); [discriminate|].
      destruct (n >=? 1844674407370955162); [discriminate|].
      destruct (_ <? _); [discriminate|].
      destruct (Z.gtb_spec (((n * 10) mod 2 ^ 64 + d) mod 2 ^ 64) 4294967295);
        [discriminate|].
      cbn [orb]. apply IH. split; [|lia].
      apply Z.mod_pos_bound. done. }
  unfold ParseUint. destruct delta as [|c delta].
  { discriminate. }
  destruct (ParseUint_loop _ _ _ _ _ _) as [deltaSec [err|]] eqn:Hparse.
  - destruct err as [| | | | | | | | | | | | | | | | |num [] |];
      try discriminate.
    intros [= <-]. unfold MaxInt32. lia.
  - apply Hloop in Hparse; [|lia]. unfold MaxInt32.
    destruct (Z.gtb_spec deltaSec 2147483647).
    + intros [= <-]. lia.
    + intros [= <-]. unfold int32.
      change (2 ^ 32) with 4294967296. change (2 ^ 31) with 2147483648.
      rewrite Z.mod_small by lia.
      destruct (Z.ltb_spec deltaSec 2147483648); lia.
Qed.

(** ** Facts about single bytes *)

Lemma isDigit_valueStop (r : bool) (c : ascii) :
  isDigit c = true -> valueStop r c = false.
Proof. destruct r; by_byte c. Qed.

Lemma isDigit_not_comma (c : ascii) :
  isDigit c = true -> Ascii.eqb c COMMA = false.
Proof. by_byte c. Qed.

Lemma isDigit_not_quote (c : ascii) :
  isDigit c = true -> Ascii.eqb c DQUOTE = false.
Proof. by_byte c. Qed.


Lemma lower_comma (c : ascii) : lower c = COMMA -> c = COMMA.
Proof. by_byte c. Qed.

Lemma Forall_byteAt_last (P : ascii -> Prop) (s : gostring) :
  s <> [] -> Forall P s -> P (byteAt s (length s - 1)).
Proof.
  intros Hne Hall. rewrite Forall_forall in Hall. apply Hall.
  apply list_elem_of_In. unfold byteAt. apply nth_In.
  destruct s; [done|simpl; lia].
Qed.

Lemma stripComma_keep (value : gostring) :
  Ascii.eqb (byteAt value (length value - 1)) COMMA = false ->
  stripComma value = value.
Proof.
  intros Hlast. unfold stripComma. rewrite Hlast.
  by rewrite andb_false_r.
Qed.

(** ** Iterations on inputs of a given shape *)

(** The input is a name, ['='] and an unquoted value that runs to the end
    of the input. *)
Lemma unitAt_pair_unquoted (c : ascii) (name value : gostring) :
  isWhiteSpace c || Ascii.eqb c COMMA = false ->
  Forall (fun b => isToken b = true) name ->
  value <> [] ->
  Ascii.eqb (byteAt value 0) DQUOTE = false ->
  Forall (fun b =>
            valueStop (tokenRequireExtensionFields (ToLower (c :: name))) b
            = false) value ->
  unitAt (c :: name ++ EQUALS :: value) 0 =
  Some (Ok ([Pair (ToLower (c :: name)) (stripComma value)],
            length (c :: name ++ EQUALS :: value))).
Proof.
  intros Hc Hname Hne Hq Hvalue.
  set (val := c :: name ++ EQUALS :: value).
  assert (length val = (S (length name) + 1 + length value)%nat) as Hlen.
  { unfold val. simpl. rewrite length_app. simpl. lia. }
  assert (scanTo tokenStop (drop (0 + 1) val) (0 + 1) = S (length name))
    as HtokenEnd.
  { change (drop (0 + 1) val) with (name ++ EQUALS :: value).
    rewrite scanTo_app_stop; [reflexivity| |done].
    eapply Forall_impl; [exact Hname|].
    intros b Hb. unfold tokenStop. by rewrite Hb. }
  assert (slice val 0 (S (length name)) = c :: name) as Hslice.
  { unfold slice, val. simpl. by rewrite take_app_length. }
  assert (byteAt val (S (length name)) = EQUALS) as Heq.
  { unfold val, byteAt. simpl. rewrite app_nth2 by lia.
    by replace (length name - length name)%nat with 0%nat by lia. }
  assert (drop (S (length name) + 1) val = value) as Hdrop.
  { unfold val. simpl. rewrite drop_app_add'; [done|lia]. }
  assert (byteAt val (S (length name) + 1) = byteAt value 0) as Hfirst.
  { rewrite <- Hdrop, byteAt_drop. f_equal. lia. }
  unfold unitAt, parseCacheControlv_iter. cbv zeta.
  change (byteAt val 0) with c. rewrite Hc, HtokenEnd, Hslice, Heq, Hdrop, Hfirst, Hq.
  assert (0 < length value)%nat as Hpos by (destruct value; [done|simpl; lia]).
  destruct (Nat.ltb_spec (S (length name) + 1) (length val)) as [_|Hshort];
    [|lia].
  change (Ascii.eqb EQUALS EQUALS) with true. cbn [andb].
  rewrite scanTo_all by done.
  replace (S (length name) + 1 + length value)%nat with (length val) by lia.
  rewrite slice_full_suffix, Hdrop. reflexivity.
Qed.

(** An input that is consumed by one iteration delivering one pair. *)
Lemma parseCacheControlv_one_pair {D} `{directive D} (d : D)
    (val key value : gostring) :
  val <> [] ->
  unitAt val 0 = Some (Ok ([Pair key value], length val)) ->
  parseCacheControlv d val =
  match setPair d key value with
  | Ok d' => Some (Ok d')
  | Err err => Some (Err err)
  end.
Proof.
  intros Hne Hunit.
  assert (0 < length val)%nat as Hpos by (destruct val; [done|simpl; lia]).
  pose proof (parseCacheControlv_iter_unitAt d val 0) as Hit.
  rewrite Hunit in Hit. rewrite parseCacheControlv_run.
  destruct (setPair d key value) as [d'|err].
  - rewrite (run_iter_ok _ _ _ _ _ Hpos Hit). by apply run_done.
  - by apply run_iter_err.
Qed.

Lemma Request_setPair_max_age (d : Request.RequestCacheDirective)
    (value : gostring) :
  Request.setPair d HeaderMaxAge value =
  match validateDeltaSeconds value with
  | (_, Some err) => Err (Wrapf ErrMaxAgeDeltaSeconds err)
  | (deltaSec, None) => Ok (Request.with_MaxAge d deltaSec)
  end.
Proof. reflexivity. Qed.

(** ** Delta-seconds through the request parser *)

(** C1. For every non-empty string [n] of decimal digits, the request
    parser accepts ["max-age=" ++ n]; the resulting [MaxAge] is the numeric
    value of [n] when that is at most 2147483647 and exactly 2147483647 when
    it is larger, however large (no bound on the length of [n]). *)
Theorem max_age_digits_saturate (n : gostring) :
  n <> [] ->
  Forall (fun c => isDigit c = true) n ->
  exists d,
    NewRequestCacheDirective ("max-age=" ++ n) = Some (Some d, None) /\
    (digitsValue n <= 2147483647 -> Request.MaxAge d = digitsValue n) /\
    (2147483647 < digitsValue n -> Request.MaxAge d = 2147483647).
Proof.
  intros Hne Hdigits.
  exists (Request.with_MaxAge Request.initial (Z.min (digitsValue n) MaxInt32)).
  split.
  - unfold NewRequestCacheDirective.
    rewrite (parseCacheControlv_one_pair _ _ HeaderMaxAge n).
    + rewrite Request_setPair_max_age, validateDeltaSeconds_digits by done.
      reflexivity.
    + discriminate.
    + change (str "max-age=" ++ n)
        with ("m"%char :: str "ax-age" ++ EQUALS :: n).
      rewrite unitAt_pair_unquoted.
      * rewrite stripComma_keep; [reflexivity|].
        apply (Forall_byteAt_last (fun c => Ascii.eqb c COMMA = false));
          [done|].
        eapply Forall_impl; [exact Hdigits|]. apply isDigit_not_comma.
      * reflexivity.
      * repeat constructor.
      * done.
      * apply isDigit_not_quote.
        destruct n as [|c n]; [done|]. by inversion Hdigits.
      * eapply Forall_impl; [exact Hdigits|].
        intros c Hc. by apply isDigit_valueStop.
  - unfold MaxInt32. simpl. split; intros Hv.
    + by rewrite Z.min_l by lia.
    + by rewrite Z.min_r by lia.
Qed.

Lemma max_age_digits_saturate_witness :
  exists d,
    NewRequestCacheDirective ("max-age=" ++ str "18446744073709551617")
    = Some (Some d, None) /\
    (digitsValue "18446744073709551617" <= 2147483647 ->
     Request.MaxAge d = digitsValue "18446744073709551617") /\
    (2147483647 < digitsValue "18446744073709551617" ->
     Request.MaxAge d = 2147483647).
Proof.
  apply (max_age_digits_saturate (str "18446744073709551617")).
  - discriminate.
  - repeat constructor.
Defined.

(** What an iteration does once the recording sink tells what it
    delivers. *)
Lemma parseCacheControlv_iter_delivers {D} `{directive D} (d : D)
    (val : gostring) (index index' : nat) (x : delivery) :
  delivers val index x index' ->
  parseCacheControlv_iter d val index =
  match x with
  | Token token =>
      match setToken d token with
      | Err err => Some (Err err)
      | Ok d' => Some (Ok (d', index'))
      end
  | Pair key value =>
      match setPair d key value with
      | Err err => Some (Err err)
      | Ok d' => Some (Ok (d', index'))
      end
  end.
Proof.
  intros Hx. rewrite parseCacheControlv_iter_unitAt, Hx. by destruct x.
Qed.

Lemma Request_rejects_sink (x : delivery) (err : error)
    (d : Request.RequestCacheDirective) :
  Request_rejects x err ->
  match x with
  | Token token => setToken d token
  | Pair key value => setPair d key value
  end = Err err.
Proof. by destruct 1. Qed.

(** C2. The validation table of the request parser.  Whenever the scan
    reaches a position where [max-age], [max-stale] or [min-fresh] is
    delivered as a bare token, or [no-cache], [no-store] or
    [only-if-cached] is delivered as a pair, the whole parse fails with the
    error of that name and form; and the input [no-cache] is accepted with
    [NoCache] set. *)
Theorem request_validation_table :
  (forall val d index index' x err,
      Request_rejects x err ->
      reaches val Request.initial 0 d index ->
      (index < length val)%nat ->
      delivers val index x index' ->
      NewRequestCacheDirective val = Some (None, Some err)) /\
  (exists d, NewRequestCacheDirective "no-cache" = Some (Some d, None) /\
             Request.NoCache d = true).
Proof.
  split.
  - intros val d index index' x err Hrej Hreach Hlt Hx.
    unfold NewRequestCacheDirective.
    rewrite parseCacheControlv_run, (run_reaches _ _ _ _ _ Hreach).
    rewrite (run_iter_err d val index err); [done|done|].
    rewrite (parseCacheControlv_iter_delivers _ _ _ _ _ Hx).
    pose proof (Request_rejects_sink x err d Hrej) as Hsink.
    destruct x; by rewrite Hsink.
  - eexists. split; [vm_compute; reflexivity|reflexivity].
Qed.

Lemma request_validation_table_witness :
  NewRequestCacheDirective "no-store, max-stale"
  = Some (None, Some ErrMaxStaleDeltaSeconds) /\
  NewRequestCacheDirective "foo, only-if-cached=1"
  = Some (None, Some ErrOnlyIfCachedDirectiveValue).
Proof.
  split.
  - eapply (proj1 request_validation_table "no-store, max-stale" _ 10%nat 19%nat
              (Token HeaderMaxStale)).
    + constructor.
    + reaches_by_computation.
    + simpl; lia.
    + vm_compute; reflexivity.
  - eapply (proj1 request_validation_table "foo, only-if-cached=1" _ 5%nat 21%nat
              (Pair HeaderOnlyIfCached "1")).
    + constructor.
    + reaches_by_computation.
    + simpl; lia.
    + vm_compute; reflexivity.
Defined.

(** At a quoted value with an unterminated body the iteration returns the
    missing-closing-quote error, whatever the sink. *)
Lemma parseCacheControlv_iter_unterminated {D} `{directive D} (d : D)
    (val : gostring) (index : nat) (body : gostring) :
  quotedValueAt val index body -> unterminated body ->
  parseCacheControlv_iter d val index = Some (Err ErrMissingClosingQuote).
Proof.
  intros (Hlt & Hskip & Hmore & Heq & Hdrop) Hbody.
  unfold parseCacheControlv_iter. cbv zeta.
  set (tokenEnd := scanTo tokenStop (drop (index + 1) val) (index + 1)) in *.
  rewrite Hskip, Heq, Hdrop.
  destruct (Nat.ltb_spec (tokenEnd + 1) (length val)); [|lia].
  assert (byteAt val (tokenEnd + 1) = DQUOTE) as ->.
  { replace (tokenEnd + 1)%nat with (tokenEnd + 1 + 0)%nat by lia.
    by rewrite <- byteAt_drop, Hdrop. }
  change (Ascii.eqb EQUALS EQUALS) with true.
  change (Ascii.eqb DQUOTE DQUOTE) with true. cbn [andb].
  apply parseQuotedString_fails_iff in Hbody as [value ->].
  reflexivity.
Qed.

(** C3 as worded fails: this input holds an unterminated quoted
    value (the iteration at position 8 finds it), yet both parsers return
    the error of the bare [max-age] that comes first. *)
Lemma unterminated_quote_after_rejected_token :
  let val := "max-age,x=" ++ DQUOTE :: "a" in
  quotedValueAt val 8 "a" /\ unterminated "a" /\
  NewRequestCacheDirective val = Some (None, Some ErrMaxAgeDeltaSeconds) /\
  NewResponseCacheDirective val = Some (None, Some ErrMaxAgeDeltaSeconds) /\
  ErrMaxAgeDeltaSeconds <> ErrMissingClosingQuote.
Proof.
  cbv zeta. split; [|split; [|split; [|split]]].
  - unfold quotedValueAt. cbv zeta. vm_compute. repeat split; lia.
  - apply unterminated_no_quote. vm_compute.
    intros Hin. by repeat (apply elem_of_cons in Hin as [?|Hin]; [done|]);
      apply elem_of_nil in Hin.
  - vm_compute; reflexivity.
  - vm_compute; reflexivity.
  - discriminate.
Qed.

(** C3 (amended). When the scan of either parser reaches, with every
    earlier directive accepted, a quoted value that has no closing quote
    or ends inside a backslash escape, the parser returns the
    missing-closing-quote error and no record; and neither parser ever
    returns a record together with an error. *)
Theorem unterminated_quote_aborts :
  (forall val index body d,
      quotedValueAt val index body -> unterminated body ->
      reaches val Request.initial 0 d index ->
      NewRequestCacheDirective val = Some (None, Some ErrMissingClosingQuote)) /\
  (forall val index body d,
      quotedValueAt val index body -> unterminated body ->
      reaches val Response.zero 0 d index ->
      NewResponseCacheDirective val = Some (None, Some ErrMissingClosingQuote)) /\
  (forall val r err,
      NewRequestCacheDirective val = Some (r, Some err) -> r = None) /\
  (forall val r err,
      NewResponseCacheDirective val = Some (r, Some err) -> r = None).
Proof.
  split; [|split; [|split]].
  - intros val index body d Hq Hbody Hreach. unfold NewRequestCacheDirective.
    rewrite parseCacheControlv_run, (run_reaches _ _ _ _ _ Hreach).
    rewrite (run_iter_err d val index ErrMissingClosingQuote); [done| |].
    + by destruct Hq.
    + by eapply parseCacheControlv_iter_unterminated.
  - intros val index body d Hq Hbody Hreach. unfold NewResponseCacheDirective.
    rewrite parseCacheControlv_run, (run_reaches _ _ _ _ _ Hreach).
    rewrite (run_iter_err d val index ErrMissingClosingQuote); [done| |].
    + by destruct Hq.
    + by eapply parseCacheControlv_iter_unterminated.
  - intros val r err. unfold NewRequestCacheDirective.
    destruct (parseCacheControlv _ _) as [[?|?]|]; congruence.
  - intros val r err. unfold NewResponseCacheDirective.
    destruct (parseCacheControlv _ _) as [[?|?]|]; congruence.
Qed.

Lemma unterminated_quote_aborts_witness :
  NewResponseCacheDirective ("private=" ++ DQUOTE :: "abc")
  = Some (None, Some ErrMissingClosingQuote) /\
  NewRequestCacheDirective ("no-cache, x=" ++ DQUOTE :: "abc" ++ [BACKSLASH])
  = Some (None, Some ErrMissingClosingQuote).
Proof.
  split.
  - apply (proj1 (proj2 unterminated_quote_aborts)
             ("private=" ++ DQUOTE :: "abc") 0%nat "abc" Response.zero).
    + unfold quotedValueAt. cbv zeta. vm_compute. repeat split; lia.
    + repeat (apply unterminated_byte; [discriminate|discriminate|]).
      apply unterminated_end.
    + apply reaches_here.
  - eapply (proj1 unterminated_quote_aborts
             ("no-cache, x=" ++ DQUOTE :: "abc" ++ [BACKSLASH]) 10%nat
             ("abc" ++ [BACKSLASH])).
    + unfold quotedValueAt. cbv zeta. vm_compute. repeat split; lia.
    + repeat (apply unterminated_byte; [discriminate|discriminate|]).
      apply unterminated_cut.
    + reaches_by_computation.
Defined.

(** ** The age fields of a request record *)

Lemma Request_setToken_ages (d d' : Request.RequestCacheDirective)
    (token : gostring) :
  agesInRange d -> Request.setToken d token = Ok d' -> agesInRange d'.
Proof.
  intros Hd. unfold Request.setToken.
  repeat (destruct (eqs token _); [by (discriminate || intros [= <-])|]).
  by intros [= <-].
Qed.

Lemma Request_setPair_ages (d d' : Request.RequestCacheDirective)
    (key value : gostring) :
  agesInRange d -> Request.setPair d key value = Ok d' -> agesInRange d'.
Proof.
  intros (Hage & Hstale & Hfresh). unfold Request.setPair.
  repeat (destruct (eqs key _); [discriminate|]).
  repeat (destruct (eqs key _);
          [destruct (validateDeltaSeconds value) as [x [err|]] eqn:Hv;
           [discriminate|];
           apply validateDeltaSeconds_range in Hv;
           intros [= <-]; repeat split; simpl; (done || by right)|]).
  by intros [= <-].
Qed.

(** C7. In every record the request parser returns without error, each of
    [MaxAge], [MaxStale] and [MinFresh] is [-1] or lies between [0] and
    [2147483647]. *)
Theorem request_age_fields_in_range (val : gostring)
    (d : Request.RequestCacheDirective) :
  NewRequestCacheDirective val = Some (Some d, None) ->
  (Request.MaxAge d = -1 \/ 0 <= Request.MaxAge d <= 2147483647) /\
  (Request.MaxStale d = -1 \/ 0 <= Request.MaxStale d <= 2147483647) /\
  (Request.MinFresh d = -1 \/ 0 <= Request.MinFresh d <= 2147483647).
Proof.
  unfold NewRequestCacheDirective.
  destruct (parseCacheControlv Request.initial val) as [[d0|err]|] eqn:Hparse;
    try discriminate.
  intros [= ->].
  apply (parseCacheControlv_invariant agesInRange) in Hparse; [exact Hparse| | |].
  - intros d1 token d2. apply Request_setToken_ages.
  - intros d1 key value d2. apply Request_setPair_ages.
  - repeat split; by left.
Qed.

Lemma request_age_fields_in_range_witness :
  exists d,
    NewRequestCacheDirective "max-age=4294967296, min-fresh=7" = Some (Some d, None) /\
    (Request.MaxAge d = -1 \/ 0 <= Request.MaxAge d <= 2147483647) /\
    (Request.MaxStale d = -1 \/ 0 <= Request.MaxStale d <= 2147483647) /\
    (Request.MinFresh d = -1 \/ 0 <= Request.MinFresh d <= 2147483647).
Proof.
  eexists. split; [vm_compute; reflexivity|].
  apply (request_age_fields_in_range "max-age=4294967296, min-fresh=7").
  vm_compute; reflexivity.
Defined.

(** ** Termination *)

(** C8. Both parse functions return on every input.  Every iteration of
    the tokenizer loop returns, and when it does not return an error the
    scan position has strictly increased and is still within the input;
    a successful quoted-string scan consumes at least two bytes and at most
    the bytes it was given; and the quoted-string scanner returns on every
    string with the fuel of its length. *)
Theorem parsers_terminate :
  (forall val, exists r, NewRequestCacheDirective val = Some r) /\
  (forall val, exists r, NewResponseCacheDirective val = Some r) /\
  (forall (D : Type) (sink : directive D) (d : D) val index,
      (index < length val)%nat ->
      exists r,
        parseCacheControlv_iter d val index = Some r /\
        forall d' index', r = Ok (d', index') ->
                          (index < index' <= length val)%nat) /\
  (forall raw, exists r, parseQuotedString raw = Some r) /\
  (forall raw eaten value,
      parseQuotedString raw = Some (eaten, value) ->
      eaten = -1 \/ 2 <= eaten <= Z.of_nat (length raw)).
Proof.
  split; [|split; [|split; [|split]]].
  - intros val. unfold NewRequestCacheDirective, parseCacheControlv.
    destruct (parseCacheControlv_loop_total (length val) Request.initial val 0)
      as [[d|err] ->]; [lia| |]; eauto.
  - intros val. unfold NewResponseCacheDirective, parseCacheControlv.
    destruct (parseCacheControlv_loop_total (length val) Response.zero val 0)
      as [[d|err] ->]; [lia| |]; eauto.
  - intros D sink d val index Hlt.
    destruct (parseCacheControlv_iter_total d val index) as [r Hr].
    exists r. split; [done|]. intros d' index' ->.
    by eapply parseCacheControlv_iter_progress.
  - apply parseQuotedString_total.
  - apply parseQuotedString_bounds.
Qed.

Lemma parsers_terminate_witness :
  exists r,
    parseCacheControlv_iter Request.initial ("a=" ++ DQUOTE :: DQUOTE :: "b") 0
    = Some r /\
    forall d' index', r = Ok (d', index') -> (0 < index' <= 5)%nat.
Proof.
  apply (proj1 (proj2 (proj2 parsers_terminate))
           Request.RequestCacheDirective Request.sink Request.initial
           ("a=" ++ DQUOTE :: DQUOTE :: "b") 0%nat).
  simpl; lia.
Defined.

(** ** A name followed by ['='] at the very end of the input *)







(** ** Unquoted values *)

Lemma tokenRequireExtensionFields_true (token : gostring) :
  tokenRequireExtensionFields token = true <->
  token = HeaderNoCache \/ token = HeaderPrivate.
Proof.
  unfold tokenRequireExtensionFields.
  change (str "no-cache") with HeaderNoCache.
  change (str "private") with HeaderPrivate.
  destruct (eqs token HeaderNoCache) eqn:Hnc.
  { apply eqs_true in Hnc. tauto. }
  destruct (eqs token HeaderPrivate) eqn:Hp.
  { apply eqs_true in Hp. tauto. }
  apply eqs_false in Hnc, Hp. split; [done|]. tauto.
Qed.

Lemma valueStop_false (r : bool) (c : ascii) :
  valueStop r c = false <->
  isWhiteSpace c = false /\ (c = COMMA -> r = true).
Proof.
  unfold valueStop.
  destruct (isWhiteSpace c), r, (Ascii.eqb_spec c COMMA); simpl;
    split; try done; try tauto.
  - intros [_ Hr]. symmetry. by apply Hr.
Qed.

Lemma valueStop_true (r : bool) (c : ascii) :
  valueStop r c = true <->
  isWhiteSpace c = true \/ (c = COMMA /\ r = false).
Proof.
  unfold valueStop.
  destruct (isWhiteSpace c), r, (Ascii.eqb_spec c COMMA); simpl;
    split; try done; try tauto; intros [?|[? ?]]; done.
Qed.

(** [stripComma] removes the last byte when it is a comma, and nothing
    else. *)
Lemma stripComma_spec (captured : gostring) :
  (exists value, captured = value ++ [COMMA] /\ stripComma captured = value) \/
  ((forall value, captured <> value ++ [COMMA]) /\
   stripComma captured = captured).
Proof.
  destruct captured as [|b captured _] using rev_ind.
  - right. split; [|done]. intros value Heq. by destruct value.
  - unfold stripComma.
    assert (byteAt (captured ++ [b]) (length (captured ++ [b]) - 1) = b) as ->.
    { rewrite length_app. simpl. rewrite byteAt_app_r by lia.
      by replace (length captured + 1 - 1 - length captured)%nat
        with 0%nat by lia. }
    assert (eqs (captured ++ [b]) "" = false) as ->.
    { apply eqs_false. by destruct captured. }
    cbn [negb andb].
    destruct (Ascii.eqb_spec b COMMA) as [->|Hb].
    + left. exists captured. split; [done|].
      rewrite length_app. simpl.
      replace (length captured + 1 - 1)%nat with (length captured) by lia.
      apply take_app_length.
    + right. split; [|done]. intros value Heq.
      apply app_inj_tail in Heq as [_ ->]. done.
Qed.

(** C5. At a name followed by ['='] and a value that does not open with a
    quote, the scan of the value ends at the first whitespace byte, or at
    the first comma unless the name is [no-cache] or [private] (for these a
    comma stays inside the value), or at the end of the input; one trailing
    comma, if the captured bytes end in one, is removed and the pair is
    delivered, the scan continuing where the value ended. *)
Theorem unquoted_value_scan (val : gostring) (index : nat) :
  let tokenEnd := scanTo tokenStop (drop (index + 1) val) (index + 1) in
  let token := ToLower (slice val index tokenEnd) in
  let valueStart := (tokenEnd + 1)%nat in
  isWhiteSpace (byteAt val index) || Ascii.eqb (byteAt val index) COMMA = false ->
  (tokenEnd + 1 < length val)%nat ->
  byteAt val tokenEnd = EQUALS ->
  byteAt val valueStart <> DQUOTE ->
  exists valueEnd value,
    (valueStart <= valueEnd <= length val)%nat /\
    (forall j, (valueStart <= j < valueEnd)%nat ->
               isWhiteSpace (byteAt val j) = false /\
               (byteAt val j = COMMA ->
                token = HeaderNoCache \/ token = HeaderPrivate)) /\
    ((valueEnd < length val)%nat ->
     isWhiteSpace (byteAt val valueEnd) = true \/
     (byteAt val valueEnd = COMMA /\
      token <> HeaderNoCache /\ token <> HeaderPrivate)) /\
    (slice val valueStart valueEnd = value ++ [COMMA] \/
     (slice val valueStart valueEnd = value /\
      forall v, value <> v ++ [COMMA])) /\
    delivers val index (Pair token value) valueEnd.
Proof.
  intros tokenEnd token valueStart Hskip Hmore Heq Hquote.
  set (r := tokenRequireExtensionFields token).
  set (valueEnd := scanTo (valueStop r) (drop valueStart val) valueStart).
  destruct (scanTo_spec (valueStop r) val valueStart) as (Hr & Hbefore & Hat);
    [unfold valueStart; lia|].
  fold valueEnd in Hr, Hbefore, Hat.
  exists valueEnd, (stripComma (slice val valueStart valueEnd)).
  split; [done|]. split; [|split; [|split]].
  - intros j Hj. apply Hbefore, valueStop_false in Hj as [Hws Hcomma].
    split; [done|]. intros Hc. by apply tokenRequireExtensionFields_true, Hcomma.
  - intros Hlt. apply Hat, valueStop_true in Hlt as [Hws|[Hc Hr']]; [by left|].
    right. split; [done|].
    split; intros Htoken;
      (assert (r = true) as Hr''
         by (apply tokenRequireExtensionFields_true; tauto));
      congruence.
  - destruct (stripComma_spec (slice val valueStart valueEnd))
      as [(value & Hcap & Hstrip)|(Hno & Hstrip)].
    + left. by rewrite Hstrip.
    + right. by rewrite Hstrip.
  - unfold delivers, unitAt, parseCacheControlv_iter. cbv zeta.
    fold tokenEnd. fold token. fold valueStart. fold r. fold valueEnd.
    rewrite Hskip, Heq.
    destruct (Nat.ltb_spec valueStart (length val)); [|unfold valueStart in *; lia].
    apply ascii_eqb_neq in Hquote. rewrite Hquote.
    reflexivity.
Qed.

Lemma unquoted_value_scan_witness :
  exists valueEnd value,
    (8 <= valueEnd <= 25)%nat /\
    delivers "private=a,b,, max-age=1,x" 0 (Pair HeaderPrivate value) valueEnd.
Proof.
  destruct (unquoted_value_scan "private=a,b,, max-age=1,x" 0)
    as (valueEnd & value & Hrange & _ & _ & _ & Hdel);
    [reflexivity|simpl; lia|reflexivity|discriminate|].
  exists valueEnd, value. split; [exact Hrange|exact Hdel].
Defined.

(** ** Directive names *)


(** C6, evaluated on the code.  The byte at the scan position is taken
    into the name without being tested by [isToken]: on the input ["(a"]
    the name delivered is ["(a"], whose first byte is a separator, and
    the request parser stores it as an extension. *)
Theorem name_first_byte_unchecked :
  isToken "(" = false /\
  delivers "(a" 0 (Token "(a") 2 /\
  NewRequestCacheDirective "(a" =
  Some (Some (Request.with_Extensions Request.initial [str "(a"]), None).
Proof.
  split; [reflexivity|]. split; vm_compute; reflexivity.
Qed.

(** ** The library models behave as the library functions do *)

Lemma Split_nonempty (s : gostring) : Split s <> [].
Proof.
  destruct s as [|c s]; simpl; [done|].
  destruct (Ascii.eqb c COMMA); [done|]. by destruct (Split s).
Qed.

(** The pieces hold no comma, and joined by commas they give the string
    back. *)
Lemma Split_pieces (s : gostring) :
  Forall (fun p => COMMA ∉ p) (Split s).
Proof.
  induction s as [|c s IH]; simpl.
  - constructor; [|done]. apply not_elem_of_nil.
  - destruct (Ascii.eqb_spec c COMMA) as [->|Hc].
    + constructor; [apply not_elem_of_nil|done].
    + pose proof (Split_nonempty s) as Hne.
      destruct (Split s) as [|p ps]; [done|].
      inversion IH as [|? ? Hp Hps]; subst.
      constructor; [|done]. by apply not_elem_of_cons.
Qed.

Lemma Split_join (s : gostring) : joinComma (Split s) = s.
Proof.
  induction s as [|c s IH]; simpl; [done|].
  pose proof (Split_nonempty s) as Hne.
  destruct (Ascii.eqb_spec c COMMA) as [->|Hc].
  - destruct (Split s) as [|p ps]; [done|]. simpl in *. by rewrite IH.
  - destruct (Split s) as [|p ps]; [done|].
    destruct ps as [|q ps]; simpl in *; by rewrite <- IH.
Qed.

Lemma trimLeft_spec (s : gostring) :
  exists l, s = l ++ trimLeft s /\
            Forall (fun b => isASCIISpace b = true) l /\
            forall b t, trimLeft s = b :: t -> isASCIISpace b = false.
Proof.
  induction s as [|c s (l & Hs & Hl & Hhead)]; simpl.
  - exists []. by repeat split.
  - destruct (isASCIISpace c) eqn:Hc.
    + exists (c :: l). split; [by rewrite Hs at 1|]. split; [by constructor|done].
    + exists []. split; [done|]. split; [done|]. by intros b t [= <- _].
Qed.

(** [TrimString] removes a run of ASCII whitespace at each end, and what
    is left neither starts nor ends with ASCII whitespace. *)
Lemma TrimString_spec (s : gostring) :
  exists l r,
    s = l ++ TrimString s ++ r /\
    Forall (fun b => isASCIISpace b = true) l /\
    Forall (fun b => isASCIISpace b = true) r /\
    (forall b t, TrimString s = b :: t -> isASCIISpace b = false) /\
    (forall t b, TrimString s = t ++ [b] -> isASCIISpace b = false).
Proof.
  unfold TrimString.
  destruct (trimLeft_spec s) as (l & Hs & Hl & Hhead).
  destruct (trimLeft_spec (reverse (trimLeft s))) as (r & Hrev & Hr & Hlast).
  set (t1 := trimLeft s) in *.
  set (t2 := trimLeft (reverse t1)) in *.
  assert (t1 = reverse t2 ++ reverse r) as Ht1.
  { rewrite <- reverse_app, <- Hrev. by rewrite reverse_involutive. }
  exists l, (reverse r). split; [by rewrite <- Ht1|].
  split; [done|]. split; [by apply Forall_reverse|]. split.
  - intros b t Ht. apply (Hhead b (t ++ reverse r)). by rewrite Ht1, Ht.
  - intros t b Ht. apply (Hlast b (reverse t)).
    rewrite <- (reverse_involutive t2), Ht, reverse_app. done.
Qed.

Lemma CanonicalHeaderKey_examples :
  CanonicalHeaderKey "x-foo" = "X-Foo" /\
  CanonicalHeaderKey "CONTENT-type" = "Content-Type" /\
  CanonicalHeaderKey "accept" = "Accept" /\
  CanonicalHeaderKey "not a token" = "not a token" /\
  CanonicalHeaderKey "" = "".
Proof. repeat split. Qed.

Lemma ToLower_examples :
  ToLower "Max-Age" = "max-age" /\ ToLower "NO-CACHE" = "no-cache" /\
  ToLower "s-maxage=[1]" = "s-maxage=[1]".
Proof. repeat split. Qed.

(** ** The examples of the specification *)

Lemma example_extensions_in_order :
  NewRequestCacheDirective "foo=bar, baz" =
  Some (Some (Request.with_Extensions Request.initial [str "foo=bar"; str "baz"]),
        None).
Proof. vm_compute; reflexivity. Qed.

Lemma example_bare_max_age :
  NewRequestCacheDirective "max-age" = Some (None, Some ErrMaxAgeDeltaSeconds).
Proof. vm_compute; reflexivity. Qed.

Lemma example_no_cache_with_value :
  NewRequestCacheDirective "no-cache=x" =
  Some (None, Some ErrNoCacheDirectiveValue).
Proof. vm_compute; reflexivity. Qed.

Lemma example_quoted_escape :
  NewResponseCacheDirective
    ("no-cache=" ++ DQUOTE :: "a" ++ BACKSLASH :: DQUOTE :: "b" ++ [DQUOTE]) =
  Some (Some (Response.with_NoCache
                (Response.with_NoCachePresent Response.zero true)
                (Some (<["a" ++ DQUOTE :: "b" := true]> ∅))), None).
Proof. vm_compute; reflexivity. Qed.

(** Without a digit after ['='] the name is a bare token: the hypothesis of
    a non-empty digit string in C1 is needed. *)
Lemma example_max_age_without_digits :
  NewRequestCacheDirective "max-age=" = Some (None, Some ErrMaxAgeDeltaSeconds).
Proof. vm_compute; reflexivity. Qed.

(** A digit string that overflows the unsigned 32-bit range followed by
    other bytes is a range error for [ParseUint], hence saturates too. *)
Lemma example_overflow_before_syntax :
  validateDeltaSeconds "99999999999x" = (MaxInt32, None).
Proof. vm_compute; reflexivity. Qed.

(** ** Field-name maps of the response side *)

Lemma foldl_insert_lookup (f : gostring -> gostring) (l : list gostring)
    (m : gmap gostring bool) (k : gostring) :
  foldl (fun m v => <[f v := true]> m) m l !! k =
  if decide (k ∈ map f l) then Some true else m !! k.
Proof.
  revert m. induction l as [|v l IH]; intros m; simpl.
  - destruct (decide (k ∈ [])) as [Hin|_]; [|done]. by apply elem_of_nil in Hin.
  - rewrite IH.
    destruct (decide (k ∈ map f l)) as [Hin|Hout].
    + rewrite decide_True; [done|]. by apply elem_of_cons; right.
    + destruct (decide (k = f v)) as [->|Hne].
      * rewrite lookup_insert_eq. rewrite decide_True; [done|].
        by apply elem_of_cons; left.
      * rewrite lookup_insert_ne by done.
        rewrite decide_False; [done|].
        intros [?|?]%elem_of_cons; done.
Qed.

Lemma addFields_lookup (m : gmap gostring bool) (value k : gostring) :
  Response.addFields m value !! k =
  if decide (k ∈ fieldNames value) then Some true else m !! k.
Proof. apply foldl_insert_lookup. Qed.

Lemma Response_setPair_no_cache (d : Response.ResponseCacheDirective)
    (value : gostring) :
  Response.setPair d HeaderNoCache value =
  Ok (Response.with_NoCache (Response.with_NoCachePresent d true)
        (Some (Response.addFields (Response.orMake (Response.NoCache d)) value))).
Proof. reflexivity. Qed.

Lemma Response_setPair_private (d : Response.ResponseCacheDirective)
    (value : gostring) :
  Response.setPair d HeaderPrivate value =
  Ok (Response.with_Private (Response.with_PrivatePresent d true)
        (Some (Response.addFields (Response.orMake (Response.Private d)) value))).
Proof. reflexivity. Qed.



(** ** Blank values of [no-cache] and [private] *)

Lemma Split_no_comma (s : gostring) : COMMA ∉ s -> Split s = [s].
Proof.
  induction s as [|c s IH]; intros Hc; [done|].
  apply not_elem_of_cons in Hc as [Hc Hs]. simpl.
  destruct (Ascii.eqb_spec c COMMA); [congruence|].
  by rewrite IH.
Qed.

Lemma trimLeft_blank (s : gostring) :
  Forall (fun b => isASCIISpace b = true) s -> trimLeft s = [].
Proof.
  induction 1 as [|b s Hb _ IH]; [done|]. simpl. by rewrite Hb.
Qed.

Lemma isASCIISpace_not_comma (b : ascii) :
  isASCIISpace b = true -> b <> COMMA.
Proof. by_byte b. Qed.

Lemma fieldNames_blank (value : gostring) :
  Forall (fun b => isASCIISpace b = true) value -> fieldNames value = [[]].
Proof.
  intros Hblank. unfold fieldNames.
  rewrite Split_no_comma.
  - simpl. unfold TrimString. rewrite (trimLeft_blank value) by done. reflexivity.
  - intros Hin. rewrite Forall_forall in Hblank.
    by apply Hblank, isASCIISpace_not_comma in Hin.
Qed.

Lemma addFields_keeps (m : gmap gostring bool) (value k : gostring) :
  m !! k = Some true -> Response.addFields m value !! k = Some true.
Proof.
  intros Hk. rewrite addFields_lookup. by destruct (decide _).
Qed.

Lemma Response_setToken_fields (d d' : Response.ResponseCacheDirective)
    (token : gostring) :
  Response.setToken d token = Ok d' ->
  Response.NoCache d' = Response.NoCache d /\
  Response.Private d' = Response.Private d.
Proof.
  unfold Response.setToken.
  repeat (destruct (eqs token _); [by (discriminate || intros [= <-])|]).
  by intros [= <-].
Qed.

Lemma Response_setPair_hasField (d d' : Response.ResponseCacheDirective)
    (key value k : gostring) :
  Response.setPair d key value = Ok d' ->
  (hasField (Response.NoCache d) k -> hasField (Response.NoCache d') k) /\
  (hasField (Response.Private d) k -> hasField (Response.Private d') k).
Proof.
  unfold Response.setPair.
  repeat (destruct (eqs key _); [discriminate|]).
  destruct (eqs key HeaderNoCache).
  { intros [= <-]. simpl. split; [|done].
    intros (m & -> & Hk). eexists. split; [done|]. by apply addFields_keeps. }
  destruct (eqs key HeaderPrivate).
  { intros [= <-]. simpl. split; [done|].
    intros (m & -> & Hk). eexists. split; [done|]. by apply addFields_keeps. }
  repeat (destruct (eqs key _);
          [destruct (validateDeltaSeconds value) as [x [err|]];
           [discriminate|by intros [= <-]]|]).
  by intros [= <-].
Qed.

(** A field name that a map holds stays in it for the rest of the scan. *)
Lemma reaches_hasField (val : gostring)
    (d d' : Response.ResponseCacheDirective) (index index' : nat)
    (k : gostring) :
  reaches val d index d' index' ->
  (hasField (Response.NoCache d) k -> hasField (Response.NoCache d') k) /\
  (hasField (Response.Private d) k -> hasField (Response.Private d') k).
Proof.
  intros Hreach. split; intros Hk.
  - revert Hk.
    apply (reaches_invariant (fun d => hasField (Response.NoCache d) k)
             _ _ _ _ _) with (3 := Hreach).
    + intros d1 token d2 H1 Hset.
      apply Response_setToken_fields in Hset as [-> _]. done.
    + intros d1 key value d2 H1 Hset.
      by apply (Response_setPair_hasField _ _ _ _ k) in Hset as [Hset _]; auto.
  - revert Hk.
    apply (reaches_invariant (fun d => hasField (Response.Private d) k)
             _ _ _ _ _) with (3 := Hreach).
    + intros d1 token d2 H1 Hset.
      apply Response_setToken_fields in Hset as [_ ->]. done.
    + intros d1 key value d2 H1 Hset.
      by apply (Response_setPair_hasField _ _ _ _ k) in Hset as [_ Hset]; auto.
Qed.

Lemma addFields_blank (m : gmap gostring bool) (value : gostring) :
  Forall (fun b => isASCIISpace b = true) value ->
  Response.addFields m value !! ([] : gostring) = Some true.
Proof.
  intros Hblank. rewrite addFields_lookup, fieldNames_blank by done.
  rewrite decide_True; [done|]. apply elem_of_cons; by left.
Qed.

(** The state of the response parser at the end of a successful parse,
    seen from a position the scan went through. *)
Lemma NewResponseCacheDirective_from (val : gostring)
    (d d1 df : Response.ResponseCacheDirective) (index index1 : nat) :
  reaches val Response.zero 0 d index ->
  (index < length val)%nat ->
  parseCacheControlv_iter d val index = Some (Ok (d1, index1)) ->
  NewResponseCacheDirective val = Some (Some df, None) ->
  reaches val d1 index1 df (length val).
Proof.
  intros Hreach Hlt Hit. unfold NewResponseCacheDirective.
  destruct (parseCacheControlv Response.zero val) as [[d0|err]|] eqn:Hparse;
    try discriminate.
  intros [= ->].
  rewrite parseCacheControlv_run, (run_reaches _ _ _ _ _ Hreach) in Hparse.
  rewrite (run_iter_ok _ _ _ _ _ Hlt Hit) in Hparse.
  apply run_ok_reaches; [|done].
  apply parseCacheControlv_iter_progress in Hit; [lia|done].
Qed.

(** C10. When a successful response parse went through a [no-cache]
    (or [private]) pair whose value is empty or consists of ASCII
    whitespace only, the record returned has a [NoCache] (or [Private])
    map that is not [nil] and holds the empty string as a key. *)
Theorem blank_field_list_adds_empty_name :
  (forall val d index index' value df,
      reaches val Response.zero 0 d index ->
      (index < length val)%nat ->
      delivers val index (Pair HeaderNoCache value) index' ->
      Forall (fun b => isASCIISpace b = true) value ->
      NewResponseCacheDirective val = Some (Some df, None) ->
      exists m, Response.NoCache df = Some m /\
                m !! ([] : gostring) = Some true /\ m <> ∅) /\
  (forall val d index index' value df,
      reaches val Response.zero 0 d index ->
      (index < length val)%nat ->
      delivers val index (Pair HeaderPrivate value) index' ->
      Forall (fun b => isASCIISpace b = true) value ->
      NewResponseCacheDirective val = Some (Some df, None) ->
      exists m, Response.Private df = Some m /\
                m !! ([] : gostring) = Some true /\ m <> ∅) /\
  NewResponseCacheDirective ("no-cache=" ++ [DQUOTE; DQUOTE]) =
  Some (Some (Response.with_NoCache
                (Response.with_NoCachePresent Response.zero true)
                (Some (<[([] : gostring) := true]> ∅))), None).
Proof.
  split; [|split].
  - intros val d index index' value df Hreach Hlt Hx Hblank Hparse.
    pose proof (parseCacheControlv_iter_delivers d _ _ _ _ Hx) as Hit.
    cbv beta iota in Hit.
    change (setPair d HeaderNoCache value)
      with (Response.setPair d HeaderNoCache value) in Hit.
    rewrite Response_setPair_no_cache in Hit.
    pose proof (NewResponseCacheDirective_from _ _ _ _ _ _ Hreach Hlt Hit Hparse)
      as Hrest.
    apply (reaches_hasField _ _ _ _ _ []) in Hrest as [Hkeep _].
    destruct Hkeep as (m & Hm & Hk).
    { eexists. split; [reflexivity|]. by apply addFields_blank. }
    exists m. split; [done|]. split; [done|].
    intros ->. by rewrite lookup_empty in Hk.
  - intros val d index index' value df Hreach Hlt Hx Hblank Hparse.
    pose proof (parseCacheControlv_iter_delivers d _ _ _ _ Hx) as Hit.
    cbv beta iota in Hit.
    change (setPair d HeaderPrivate value)
      with (Response.setPair d HeaderPrivate value) in Hit.
    rewrite Response_setPair_private in Hit.
    pose proof (NewResponseCacheDirective_from _ _ _ _ _ _ Hreach Hlt Hit Hparse)
      as Hrest.
    apply (reaches_hasField _ _ _ _ _ []) in Hrest as [_ Hkeep].
    destruct Hkeep as (m & Hm & Hk).
    { eexists. split; [reflexivity|]. by apply addFields_blank. }
    exists m. split; [done|]. split; [done|].
    intros ->. by rewrite lookup_empty in Hk.
  - vm_compute; reflexivity.
Qed.

Lemma blank_field_list_adds_empty_name_witness :
  exists m,
    Response.Private
      (Response.with_Extensions
         (Response.with_Private
            (Response.with_PrivatePresent
               (Response.with_Public Response.zero true) true)
            (Some (<[([] : gostring) := true]> ∅)))
         [str "x"]) = Some m /\
    m !! ([] : gostring) = Some true /\ m <> ∅.
Proof.
  apply (proj1 (proj2 blank_field_list_adds_empty_name)
           ("public, private=" ++ DQUOTE :: " " ++ DQUOTE :: ", x")
           (Response.with_Public Response.zero true) 8%nat 19%nat " ").
  - reaches_by_computation.
  - simpl; lia.
  - vm_compute; reflexivity.
  - repeat constructor.
  - vm_compute; reflexivity.
Defined.

(** * Further properties *)

(** ** The quoted-string scanner as a decoder *)

Lemma take_insert_next (buf : gostring) (k : nat) (x : ascii) :
  (k < length buf)%nat -> take (k + 1) (<[k := x]> buf) = take k buf ++ [x].
Proof.
  intros Hk. replace (k + 1)%nat with (S k) by lia.
  rewrite (take_S_r _ _ x) by (by apply list_lookup_insert_eq).
  by rewrite take_insert_ge by lia.
Qed.

Lemma parseQuotedString_loop_unquoteBody (fuel : nat) (raw buf : gostring)
    (bufIdx i : nat) :
  length buf = length raw -> (bufIdx < i)%nat ->
  (length raw - i <= fuel)%nat ->
  parseQuotedString_loop fuel raw buf bufIdx i =
  Some (match unquoteBody (drop i raw) with
        | Some (n, value) => (Z.of_nat (i + n), take bufIdx buf ++ value)
        | None => (-1, [])
        end).
Proof.
  revert buf bufIdx i.
  induction fuel as [|fuel IH]; intros buf bufIdx i Hbuf Hidx Hfuel; simpl;
    destruct (Nat.ltb_spec i (length raw)) as [Hlt|Hge]; try lia;
    try (by rewrite drop_ge by lia).
  destruct (lookup_lt_is_Some_2 raw i Hlt) as [b Hb].
  rewrite (drop_S _ _ _ Hb).
  assert (byteAt raw i = b) as ->.
  { unfold byteAt. by apply nth_lookup_Some with (d := zero) in Hb. }
  cbn [unquoteBody].
  destruct (Ascii.eqb b DQUOTE).
  { by rewrite app_nil_r. }
  destruct (Ascii.eqb b BACKSLASH).
  - destruct (Nat.ltb_spec (length raw) (i + 2)) as [Hcut|Hmore].
    + by rewrite drop_ge by lia.
    + assert (S i < length raw)%nat as Hlt' by lia.
      destruct (lookup_lt_is_Some_2 raw (S i) Hlt') as [c Hc].
      rewrite (drop_S _ _ _ Hc).
      assert (byteAt raw (i + 1) = c) as ->.
      { unfold byteAt. replace (i + 1)%nat with (S i) by lia.
        by apply nth_lookup_Some with (d := zero) in Hc. }
      rewrite IH; [|by rewrite length_insert|lia|lia].
      replace (i + 1 + 1)%nat with (S (S i)) by lia.
      destruct (unquoteBody (drop (S (S i)) raw)) as [[n value]|]; [|done].
      rewrite take_insert_next by lia. rewrite <- app_assoc.
      do 2 f_equal. f_equal. lia.
  - rewrite IH; [|by rewrite length_insert|lia|lia].
    replace (i + 1)%nat with (S i) by lia.
    destruct (unquoteBody (drop (S i) raw)) as [[n value]|]; [|done].
    rewrite take_insert_next by lia. rewrite <- app_assoc.
    do 2 f_equal. f_equal. lia.
Qed.

Lemma parseQuotedString_unquoteBody (body : gostring) :
  parseQuotedString (DQUOTE :: body) =
  Some (match unquoteBody body with
        | Some (n, value) => (Z.of_nat (1 + n), value)
        | None => (-1, [])
        end).
Proof.
  rewrite parseQuotedString_quoted.
  rewrite parseQuotedString_loop_unquoteBody;
    [done|by rewrite length_replicate|lia|lia].
Qed.

(** X1. The scanner with its index, buffer and early returns computes what
    the left-to-right decoder [unquoteBody] computes on the bytes after the
    opening quote; a string that starts with another byte is refused. *)
Theorem parseQuotedString_is_decoder :
  (forall body,
      parseQuotedString (DQUOTE :: body) =
      Some (match unquoteBody body with
            | Some (n, value) => (Z.of_nat (1 + n), value)
            | None => (-1, [])
            end)) /\
  (forall c rest, c <> DQUOTE -> parseQuotedString (c :: rest) = Some (-1, [])).
Proof.
  split; [apply parseQuotedString_unquoteBody|].
  intros c rest Hc. unfold parseQuotedString.
  change (byteAt (c :: rest) 0) with c.
  apply ascii_eqb_neq in Hc. by rewrite Hc.
Qed.

Lemma parseQuotedString_is_decoder_witness :
  parseQuotedString "max-age" = Some (-1, []).
Proof.
  apply (proj2 parseQuotedString_is_decoder "m"%char "ax-age"). discriminate.
Defined.

Lemma unquoteBody_quoteString (s rest : gostring) :
  Forall (fun c => isAnyText c = true) s ->
  unquoteBody (flat_map escapeByte s ++ DQUOTE :: rest) =
  Some (S (length (flat_map escapeByte s)), s).
Proof.
  induction 1 as [|c s Hc _ IH]; [done|].
  cbn [flat_map]. unfold escapeByte at 1 3.
  destruct (Ascii.eqb_spec c DQUOTE) as [->|Hq].
  { cbn [orb app unquoteBody]. change (Ascii.eqb BACKSLASH DQUOTE) with false.
    change (Ascii.eqb BACKSLASH BACKSLASH) with true. cbv iota.
    rewrite IH. reflexivity. }
  destruct (Ascii.eqb_spec c BACKSLASH) as [->|Hb].
  { cbn [orb app unquoteBody]. change (Ascii.eqb BACKSLASH DQUOTE) with false.
    change (Ascii.eqb BACKSLASH BACKSLASH) with true. cbv iota.
    rewrite IH. reflexivity. }
  cbn [orb app unquoteBody].
  apply ascii_eqb_neq in Hq, Hb. rewrite Hq, Hb, IH.
  unfold isQdText. rewrite Hc, Hq. reflexivity.
Qed.

(** X2. Round trip.  A string without raw control bytes, written between
    quotes with its quotes and backslashes escaped, is read back unchanged,
    whatever follows the closing quote, and the bytes consumed are exactly
    the quoted form. *)
Theorem parseQuotedString_quoteString (s rest : gostring) :
  Forall (fun c => isAnyText c = true) s ->
  parseQuotedString (quoteString s ++ rest) =
  Some (Z.of_nat (length (quoteString s)), s).
Proof.
  intros Hs. unfold quoteString.
  change ((DQUOTE :: flat_map escapeByte s ++ [DQUOTE]) ++ rest)
    with (DQUOTE :: (flat_map escapeByte s ++ [DQUOTE]) ++ rest).
  rewrite <- app_assoc. cbn [app].
  rewrite parseQuotedString_unquoteBody, unquoteBody_quoteString by done.
  do 2 f_equal. cbn [length]. rewrite length_app. cbn [length]. lia.
Qed.

Lemma parseQuotedString_quoteString_witness :
  parseQuotedString (quoteString ("say " ++ DQUOTE :: "hi" ++ [DQUOTE; BACKSLASH])
                     ++ ", public") =
  Some (Z.of_nat (length (quoteString
                            ("say " ++ DQUOTE :: "hi" ++ [DQUOTE; BACKSLASH]))),
        "say " ++ DQUOTE :: "hi" ++ [DQUOTE; BACKSLASH]).
Proof.
  apply (parseQuotedString_quoteString
           ("say " ++ DQUOTE :: "hi" ++ [DQUOTE; BACKSLASH]) ", public").
  repeat constructor.
Defined.

Lemma unquotePair_unquotedByte (c : ascii) :
  unquotedByte (unquotePair c) = true.
Proof. by_byte c. Qed.

Lemma stored_unquotedByte (b : ascii) :
  unquotedByte (if isQdText b then b else QUESTION) = true.
Proof. by_byte b. Qed.

Lemma unquoteBody_bytes (body : gostring) (n : nat) (value : gostring) :
  unquoteBody body = Some (n, value) ->
  Forall (fun b => unquotedByte b = true) value.
Proof.
  revert n value.
  induction body as [body IH] using (induction_ltof1 _ (@length ascii)).
  unfold ltof in IH. intros n value.
  destruct body as [|b rest]; [discriminate|]. cbn [unquoteBody].
  destruct (Ascii.eqb b DQUOTE); [by intros [= _ <-]|].
  destruct (Ascii.eqb b BACKSLASH).
  - destruct rest as [|c rest']; [discriminate|].
    destruct (unquoteBody rest') as [[n' value']|] eqn:Hrest; [|discriminate].
    intros [= _ <-]. constructor; [apply unquotePair_unquotedByte|].
    eapply IH; [|exact Hrest]. simpl; lia.
  - destruct (unquoteBody rest) as [[n' value']|] eqn:Hrest; [|discriminate].
    intros [= _ <-]. constructor; [apply stored_unquotedByte|].
    eapply IH; [|exact Hrest]. simpl; lia.
Qed.

Lemma parseQuotedString_inv (raw : gostring) (eaten : Z) (value : gostring) :
  parseQuotedString raw = Some (eaten, value) -> eaten <> -1 ->
  exists body n,
    raw = DQUOTE :: body /\ unquoteBody body = Some (n, value) /\
    eaten = Z.of_nat (1 + n).
Proof.
  intros Hparse Heaten.
  destruct raw as [|c body].
  { unfold parseQuotedString in Hparse. simpl in Hparse.
    injection Hparse as <- _. done. }
  destruct (decide (c = DQUOTE)) as [->|Hc].
  - rewrite parseQuotedString_unquoteBody in Hparse.
    destruct (unquoteBody body) as [[n v]|] eqn:Hbody;
      injection Hparse as <- <-; [|done].
    by exists body, n.
  - unfold parseQuotedString in Hparse.
    change (byteAt (c :: body) 0) with c in Hparse.
    apply ascii_eqb_neq in Hc. rewrite Hc in Hparse.
    injection Hparse as <- _. done.
Qed.

(** X3. Whatever the input, a value returned by the scanner holds only
    text bytes, quotes and the control bytes 7 to 13 that the escapes
    denote: every other control byte of the input has been replaced
    by ['?']. *)
Theorem parseQuotedString_value_bytes (raw : gostring) (eaten : Z)
    (value : gostring) :
  parseQuotedString raw = Some (eaten, value) ->
  Forall (fun b => isCtl b = false \/ 7 <= code b <= 13) value.
Proof.
  intros Hparse.
  assert (Forall (fun b => unquotedByte b = true) value) as Hbytes.
  { destruct (decide (eaten = -1)) as [->|Heaten].
    - destruct raw as [|c body].
      + unfold parseQuotedString in Hparse. simpl in Hparse.
        by injection Hparse as <-.
      + destruct (decide (c = DQUOTE)) as [->|Hc].
        * rewrite parseQuotedString_unquoteBody in Hparse.
          destruct (unquoteBody body) as [[n v]|].
          -- injection Hparse as Hn _. lia.
          -- by injection Hparse as <-.
        * unfold parseQuotedString in Hparse.
          change (byteAt (c :: body) 0) with c in Hparse.
          apply ascii_eqb_neq in Hc. rewrite Hc in Hparse.
          by injection Hparse as <-.
    - apply parseQuotedString_inv in Hparse as (body & n & _ & Hbody & _);
        [|done].
      by eapply unquoteBody_bytes. }
  eapply Forall_impl; [exact Hbytes|].
  intros b. clear. unfold unquotedByte, isQdText, isAnyText.
  destruct (isCtl b) eqn:Hctl; [|by left].
  simpl. intros Hb. right.
  apply orb_true_iff in Hb as [Hq|Hrange].
  - apply ascii_eqb_eq in Hq as ->. discriminate.
  - apply andb_true_iff in Hrange as [Hlo Hhi]. lia.
Qed.

Lemma parseQuotedString_value_bytes_witness :
  Forall (fun b => isCtl b = false \/ 7 <= code b <= 13)
    ["a"; "?"; "010"; "?"]%char.
Proof.
  apply (parseQuotedString_value_bytes
           (DQUOTE :: "a" ++ ["000"%char; BACKSLASH; "n"%char; BACKSLASH; "0"%char;
                              DQUOTE])
           8).
  vm_compute; reflexivity.
Defined.

Lemma unquoteBody_local (body : gostring) (n : nat) (value : gostring) :
  unquoteBody body = Some (n, value) ->
  (1 <= n <= length body)%nat /\
  byteAt body (n - 1) = DQUOTE /\
  (length value < n)%nat /\
  forall rest, unquoteBody (take n body ++ rest) = Some (n, value).
Proof.
  revert n value.
  induction body as [body IH] using (induction_ltof1 _ (@length ascii)).
  unfold ltof in IH. intros n value.
  destruct body as [|b rest]; [discriminate|]. cbn [unquoteBody].
  destruct (Ascii.eqb_spec b DQUOTE) as [->|Hq].
  { intros [= <- <-]. simpl. repeat split; lia || done. }
  destruct (Ascii.eqb_spec b BACKSLASH) as [->|Hb].
  - destruct rest as [|c rest']; [discriminate|].
    destruct (unquoteBody rest') as [[n' value']|] eqn:Hrest; [|discriminate].
    intros [= <- <-].
    destruct (IH rest' ltac:(simpl; lia) _ _ Hrest) as (Hn & Hlast & Hlen & Hloc).
    split; [simpl; lia|]. split; [|split; [simpl; lia|]].
    + cbn [Nat.add].
      replace (S (S n') - 1)%nat with (S (S (n' - 1))) by lia. exact Hlast.
    + intros rest0. cbn [take app unquoteBody Nat.add].
      change (Ascii.eqb BACKSLASH DQUOTE) with false.
      change (Ascii.eqb BACKSLASH BACKSLASH) with true. cbv iota.
      by rewrite Hloc.
  - destruct (unquoteBody rest) as [[n' value']|] eqn:Hrest; [|discriminate].
    intros [= <- <-].
    destruct (IH rest ltac:(simpl; lia) _ _ Hrest) as (Hn & Hlast & Hlen & Hloc).
    split; [simpl; lia|]. split; [|split; [simpl; lia|]].
    + cbn [Nat.add].
      replace (S n' - 1)%nat with (S (n' - 1)) by lia. exact Hlast.
    + intros rest0. cbn [take app unquoteBody Nat.add].
      apply ascii_eqb_neq in Hq, Hb. by rewrite Hq, Hb, Hloc.
Qed.

(** X4. A successful scan ends on the closing quote and depends on nothing
    after it: the byte before position [eaten] is a quote, the value is
    shorter than [eaten - 1], and the same result is returned when the
    bytes from [eaten] on are replaced by any others. *)
Theorem parseQuotedString_stops_at_quote (raw : gostring) (eaten : Z)
    (value : gostring) :
  parseQuotedString raw = Some (eaten, value) -> eaten <> -1 ->
  byteAt raw (Z.to_nat eaten - 1) = DQUOTE /\
  Z.of_nat (length value) <= eaten - 2 /\
  forall rest,
    parseQuotedString (take (Z.to_nat eaten) raw ++ rest) = Some (eaten, value).
Proof.
  intros Hparse Heaten.
  apply parseQuotedString_inv in Hparse as (body & n & -> & Hbody & ->);
    [|done].
  destruct (unquoteBody_local _ _ _ Hbody) as (Hn & Hlast & Hlen & Hloc).
  rewrite Nat2Z.id. split; [|split].
  - cbn [Nat.add].
    replace (S n - 1)%nat with (S (n - 1)) by lia. exact Hlast.
  - lia.
  - intros rest. cbn [Nat.add take app].
    by rewrite parseQuotedString_unquoteBody, Hloc.
Qed.

Lemma parseQuotedString_stops_at_quote_witness :
  byteAt (DQUOTE :: "ab" ++ DQUOTE :: ", x") (Z.to_nat 4 - 1) = DQUOTE /\
  Z.of_nat (length (str "ab")) <= 4 - 2 /\
  forall rest,
    parseQuotedString (take (Z.to_nat 4) (DQUOTE :: "ab" ++ DQUOTE :: ", x") ++ rest)
    = Some (4, str "ab").
Proof.
  apply (parseQuotedString_stops_at_quote (DQUOTE :: "ab" ++ DQUOTE :: ", x")
           4 "ab").
  - vm_compute; reflexivity.
  - discriminate.
Defined.

(** ** The tokenizer: blank input, prefixes, sinks *)

Lemma byteAt_app_l (s t : gostring) (i : nat) :
  (i < length s)%nat -> byteAt (s ++ t) i = byteAt s i.
Proof. intros Hi. unfold byteAt. by apply app_nth1. Qed.

Section TokenizerStructure.
Context {D : Type} `{directive D}.

Lemma run_skips (d : D) (val : gostring) (index : nat) :
  Forall (fun c => skipped c = true) val -> run d val index = Some (Ok d).
Proof.
  intros Hblank.
  remember (length val - index)%nat as n eqn:Hn. revert index Hn.
  induction n as [|n IH]; intros index Hn.
  - apply run_done. lia.
  - assert (index < length val)%nat as Hlt by lia.
    rewrite (run_iter_ok d d val index (index + 1)); [apply IH; lia|done|].
    unfold parseCacheControlv_iter.
    assert (skipped (byteAt val index) = true) as Hskip.
    { rewrite Forall_forall in Hblank. apply Hblank.
      apply list_elem_of_In. unfold byteAt. by apply nth_In. }
    unfold skipped in Hskip. by rewrite Hskip.
Qed.

Lemma scanTo_shift (stop : ascii -> bool) (rest : gostring) (k pos : nat) :
  scanTo stop rest (k + pos) = (k + scanTo stop rest pos)%nat.
Proof.
  revert pos. induction rest as [|c rest IH]; intros pos; simpl; [done|].
  destruct (stop c); [done|].
  replace (S (k + pos)) with (k + S pos)%nat by lia. apply IH.
Qed.

(** An iteration never looks at the bytes before its position. *)
Lemma parseCacheControlv_iter_shift (d : D) (pre val : gostring) (i : nat) :
  parseCacheControlv_iter d (pre ++ val) (length pre + i) =
  match parseCacheControlv_iter d val i with
  | Some (Ok (d', i')) => Some (Ok (d', (length pre + i')%nat))
  | Some (Err err) => Some (Err err)
  | None => None
  end.
Proof.
  assert (forall j, byteAt (pre ++ val) (length pre + j) = byteAt val j) as Hbyte.
  { intros j. rewrite byteAt_app_r by lia. f_equal. lia. }
  assert (forall j, drop (length pre + j) (pre ++ val) = drop j val) as Hdrop.
  { intros j. by rewrite drop_app_add'. }
  assert (forall a b, slice (pre ++ val) (length pre + a) (length pre + b)
                      = slice val a b) as Hslice.
  { intros a b. unfold slice. rewrite Hdrop. f_equal. lia. }
  assert (forall a, (length pre + a <? length (pre ++ val))%nat
                    = (a <? length val)%nat) as Hlt.
  { intros a. rewrite length_app.
    destruct (Nat.ltb_spec a (length val)), (Nat.ltb_spec (length pre + a)
      (length pre + length val)); done || lia. }
  unfold parseCacheControlv_iter. cbv zeta.
  rewrite Hbyte.
  destruct (_ || _); [do 3 f_equal; lia|].
  replace (length pre + i + 1)%nat with (length pre + (i + 1))%nat by lia.
  rewrite Hdrop, scanTo_shift.
  set (tokenEnd := scanTo tokenStop (drop (i + 1) val) (i + 1)).
  rewrite Hslice, Hbyte.
  replace (length pre + tokenEnd + 1)%nat
    with (length pre + (tokenEnd + 1))%nat by lia.
  rewrite Hlt, Hbyte, Hdrop, scanTo_shift, Hslice.
  destruct (_ && _).
  - destruct (_ && _).
    + destruct (parseQuotedString _) as [[eaten value]|]; [|done].
      destruct (eaten =? -1); [done|].
      destruct (setPair _ _ _); [|done]. do 3 f_equal. lia.
    + by destruct (setPair _ _ _).
  - destruct (negb _); [|done]. by destruct (setToken _ _).
Qed.

Lemma run_shift (d : D) (pre val : gostring) (i : nat) :
  run d (pre ++ val) (length pre + i) = run d val i.
Proof.
  remember (length val - i)%nat as n eqn:Hn. revert d i Hn.
  induction n as [n IH] using lt_wf_ind. intros d i Hn.
  destruct (decide (i < length val)%nat) as [Hlt|Hge].
  - assert (length pre + i < length (pre ++ val))%nat as Hlt'
      by (rewrite length_app; lia).
    pose proof (parseCacheControlv_iter_shift d pre val i) as Hshift.
    destruct (parseCacheControlv_iter_total d val i) as [[[d' i']|err] Hit];
      rewrite Hit in Hshift.
    + rewrite (run_iter_ok _ _ _ _ _ Hlt' Hshift), (run_iter_ok _ _ _ _ _ Hlt Hit).
      apply parseCacheControlv_iter_progress in Hit; [|done].
      eapply IH; [|reflexivity]. lia.
    + by rewrite (run_iter_err _ _ _ _ Hlt' Hshift), (run_iter_err _ _ _ _ Hlt Hit).
  - rewrite !run_done; [done|lia|rewrite length_app; lia].
Qed.

Lemma reaches_skips (d : D) (sep val : gostring) :
  Forall (fun c => skipped c = true) sep ->
  reaches (sep ++ val) d 0 d (length sep).
Proof.
  intros Hsep.
  assert (forall n k, (length sep - k = n)%nat -> (k <= length sep)%nat ->
                      reaches (sep ++ val) d k d (length sep)) as Hgo.
  { induction n as [|n IH]; intros k Hn Hk.
    - replace k with (length sep) by lia. constructor.
    - eapply (reaches_iter _ d k d (k + 1)).
      + rewrite length_app. lia.
      + unfold parseCacheControlv_iter.
        assert (skipped (byteAt (sep ++ val) k) = true) as Hskip.
        { rewrite byteAt_app_l by lia.
          rewrite Forall_forall in Hsep. apply Hsep.
          apply list_elem_of_In. unfold byteAt. apply nth_In. lia. }
        unfold skipped in Hskip. by rewrite Hskip.
      + apply IH; lia. }
  apply (Hgo (length sep)); lia.
Qed.

End TokenizerStructure.

(** X5. A header that is empty or holds only spaces, tabs and commas is
    accepted and leaves the sink as it was: the request parser returns its
    initial record and the response parser its zero record. *)
Theorem blank_header_leaves_sink (val : gostring) :
  Forall (fun c => skipped c = true) val ->
  (forall (D : Type) (sink : directive D) (d : D),
      parseCacheControlv d val = Some (Ok d)) /\
  NewRequestCacheDirective val = Some (Some Request.initial, None) /\
  NewResponseCacheDirective val = Some (Some Response.zero, None).
Proof.
  intros Hblank.
  assert (forall (D : Type) (sink : directive D) (d : D),
             parseCacheControlv d val = Some (Ok d)) as Hany.
  { intros D sink d. rewrite parseCacheControlv_run. by apply run_skips. }
  split; [exact Hany|].
  unfold NewRequestCacheDirective, NewResponseCacheDirective.
  by rewrite !Hany.
Qed.

Lemma blank_header_leaves_sink_witness :
  (forall (D : Type) (sink : directive D) (d : D),
      parseCacheControlv d (" ," ++ [TAB] ++ ", ,") = Some (Ok d)) /\
  NewRequestCacheDirective (" ," ++ [TAB] ++ ", ,")
  = Some (Some Request.initial, None) /\
  NewResponseCacheDirective (" ," ++ [TAB] ++ ", ,")
  = Some (Some Response.zero, None).
Proof.
  apply (blank_header_leaves_sink (" ," ++ [TAB] ++ ", ,")).
  repeat constructor.
Defined.

(** X6. No backtracking.  Once the scan has arrived at a position, the
    rest of the parse is the parse of the remaining bytes as a header of
    their own, started on the sink as it is then. *)
Theorem parse_resumes_on_suffix (D : Type) (sink : directive D) (d0 d : D)
    (pre val : gostring) :
  reaches (pre ++ val) d0 0 d (length pre) ->
  parseCacheControlv d0 (pre ++ val) = parseCacheControlv d val.
Proof.
  intros Hreach.
  rewrite !parseCacheControlv_run, (run_reaches _ _ _ _ _ Hreach).
  replace (length pre) with (length pre + 0)%nat by lia.
  apply run_shift.
Qed.

Lemma parse_resumes_on_suffix_witness :
  parseCacheControlv Request.initial ("no-store, " ++ str "max-age=5") =
  parseCacheControlv (Request.with_NoStore Request.initial true) "max-age=5".
Proof.
  apply (parse_resumes_on_suffix Request.RequestCacheDirective Request.sink
           Request.initial (Request.with_NoStore Request.initial true)
           "no-store, " "max-age=5").
  reaches_by_computation.
Defined.

(** X7. Spaces, tabs and commas in front of a header do not change the
    result of either parser. *)
Theorem leading_separators_ignored (sep val : gostring) :
  Forall (fun c => skipped c = true) sep ->
  NewRequestCacheDirective (sep ++ val) = NewRequestCacheDirective val /\
  NewResponseCacheDirective (sep ++ val) = NewResponseCacheDirective val.
Proof.
  intros Hsep.
  assert (forall (D : Type) (sink : directive D) (d : D),
             parseCacheControlv d (sep ++ val) = parseCacheControlv d val)
    as Hany.
  { intros D sink d.
    rewrite !parseCacheControlv_run,
      (run_reaches _ _ _ _ _ (reaches_skips d sep val Hsep)).
    replace (length sep) with (length sep + 0)%nat by lia.
    apply run_shift. }
  unfold NewRequestCacheDirective, NewResponseCacheDirective.
  by rewrite !Hany.
Qed.

Lemma leading_separators_ignored_witness :
  NewRequestCacheDirective (", ,  " ++ str "max-age=1, x")
  = NewRequestCacheDirective "max-age=1, x" /\
  NewResponseCacheDirective (", ,  " ++ str "max-age=1, x")
  = NewResponseCacheDirective "max-age=1, x".
Proof.
  apply (leading_separators_ignored ", ,  " "max-age=1, x").
  repeat constructor.
Defined.

(** ** The sink sees what the recording sink records *)

Lemma Trace_iter (log : list delivery) (val : gostring) (index : nat) :
  parseCacheControlv_iter log val index =
  match unitAt val index with
  | Some (Ok (new, index')) => Some (Ok (log ++ new, index'))
  | Some (Err err) => Some (Err err)
  | None => None
  end.
Proof.
  unfold unitAt, parseCacheControlv_iter. cbv zeta.
  destruct (_ || _); [by rewrite app_nil_r|].
  destruct (_ && _).
  - destruct (_ && _).
    + destruct (parseQuotedString _) as [[eaten value]|]; [|done].
      by destruct (eaten =? -1).
    + done.
  - destruct (negb _); [done|]. by rewrite app_nil_r.
Qed.

Lemma run_replay (val : gostring) (index : nat) (l0 log : list delivery) :
  run l0 val index = Some (Ok log) ->
  exists new,
    log = l0 ++ new /\
    forall (D : Type) (sink : directive D) (d : D),
      run d val index = Some (replay d new).
Proof.
  remember (length val - index)%nat as n eqn:Hn. revert index l0 Hn.
  induction n as [n IH] using lt_wf_ind. intros index l0 Hn Hrun.
  destruct (decide (index < length val)%nat) as [Hlt|Hge].
  - pose proof (Trace_iter l0 val index) as Htrace.
    destruct (unitAt val index) as [[[new index']|err]|] eqn:Hunit.
    + pose proof (parseCacheControlv_iter_progress _ _ _ _ _ Hlt Htrace) as Hprog.
      rewrite (run_iter_ok _ _ _ _ _ Hlt Htrace) in Hrun.
      destruct (IH (length val - index')%nat ltac:(lia) index' (l0 ++ new)
                  eq_refl Hrun) as (rest & -> & Hrest).
      exists (new ++ rest). split; [by rewrite app_assoc|].
      intros D sink d.
      pose proof (parseCacheControlv_iter_unitAt d val index) as Hit.
      rewrite Hunit in Hit.
      destruct new as [|[token|key value] [|x new]].
      * by rewrite (run_iter_ok _ _ _ _ _ Hlt Hit), Hrest.
      * cbn [app replay]. destruct (setToken d token) as [d'|err].
        -- by rewrite (run_iter_ok _ _ _ _ _ Hlt Hit), Hrest.
        -- by rewrite (run_iter_err _ _ _ _ Hlt Hit).
      * destruct (parseCacheControlv_iter_total d val index) as [r Hr].
        congruence.
      * cbn [app replay]. destruct (setPair d key value) as [d'|err].
        -- by rewrite (run_iter_ok _ _ _ _ _ Hlt Hit), Hrest.
        -- by rewrite (run_iter_err _ _ _ _ Hlt Hit).
      * destruct (parseCacheControlv_iter_total d val index) as [r Hr].
        congruence.
    + rewrite (run_iter_err _ _ _ _ Hlt Htrace) in Hrun. discriminate.
    + destruct (parseCacheControlv_iter_total l0 val index) as [r Hr].
      congruence.
  - rewrite run_done in Hrun by lia. injection Hrun as <-.
    exists []. split; [by rewrite app_nil_r|].
    intros D sink d. by rewrite run_done by lia.
Qed.

Lemma run_trace_error (val : gostring) (index : nat) (l0 : list delivery)
    (err : error) :
  run l0 val index = Some (Err err) ->
  forall (D : Type) (sink : directive D) (d : D),
    exists err', run d val index = Some (Err err').
Proof.
  remember (length val - index)%nat as n eqn:Hn. revert index l0 Hn.
  induction n as [n IH] using lt_wf_ind. intros index l0 Hn Hrun D sink d.
  destruct (decide (index < length val)%nat) as [Hlt|Hge].
  - pose proof (Trace_iter l0 val index) as Htrace.
    pose proof (parseCacheControlv_iter_unitAt d val index) as Hit.
    destruct (unitAt val index) as [[[new index']|err0]|] eqn:Hunit.
    + pose proof (parseCacheControlv_iter_progress _ _ _ _ _ Hlt Htrace) as Hprog.
      rewrite (run_iter_ok _ _ _ _ _ Hlt Htrace) in Hrun.
      destruct (parseCacheControlv_iter_total d val index) as [[[d' i']|e] Hr].
      * rewrite (run_iter_ok _ _ _ _ _ Hlt Hr).
        assert (i' = index') as ->.
        { rewrite Hr in Hit.
          destruct new as [|[token|key value] [|x new]]; try discriminate.
          - by injection Hit as _ ->.
          - destruct (setToken d token); [by injection Hit as _ ->|discriminate].
          - destruct (setPair d key value); [by injection Hit as _ ->|discriminate]. }
        eapply IH; [|reflexivity|exact Hrun]. lia.
      * rewrite (run_iter_err _ _ _ _ Hlt Hr). eauto.
    + rewrite (run_iter_err _ _ _ _ Hlt Hit). eauto.
    + destruct (parseCacheControlv_iter_total l0 val index) as [r Hr].
      congruence.
  - rewrite run_done in Hrun by lia. discriminate.
Qed.

Lemma parseCacheControlv_replay {D} `{directive D} (d : D) (val : gostring)
    (log : list delivery) :
  parseCacheControlv (D := list delivery) [] val = Some (Ok log) ->
  parseCacheControlv d val = Some (replay d log).
Proof.
  rewrite !parseCacheControlv_run. intros Hrun.
  apply run_replay in Hrun as (new & -> & Hnew). apply Hnew.
Qed.

(** X8. The tokenizer does not depend on the sink.  When the recording
    sink gets the deliveries [log] from a header, any other sink ends as if
    it had been given [log] in order, stopping at its first refusal; and
    when the recording run fails (on a quoted value without closing quote)
    every sink's parse fails. *)
Theorem sink_sees_recorded_deliveries :
  (forall (D : Type) (sink : directive D) (d : D) val log,
      parseCacheControlv (D := list delivery) [] val = Some (Ok log) ->
      parseCacheControlv d val = Some (replay d log)) /\
  (forall (D : Type) (sink : directive D) (d : D) val err,
      parseCacheControlv (D := list delivery) [] val = Some (Err err) ->
      exists err', parseCacheControlv d val = Some (Err err')).
Proof.
  split.
  - intros D sink d val log. apply parseCacheControlv_replay.
  - intros D sink d val err. rewrite !parseCacheControlv_run.
    intros Hrun. by eapply run_trace_error.
Qed.

Lemma sink_sees_recorded_deliveries_witness :
  parseCacheControlv Response.zero "public, max-age" =
  Some (replay Response.zero [Token HeaderPublic; Token HeaderMaxAge]).
Proof.
  apply (proj1 sink_sees_recorded_deliveries
           Response.ResponseCacheDirective Response.sink Response.zero
           "public, max-age" [Token HeaderPublic; Token HeaderMaxAge]).
  vm_compute; reflexivity.
Defined.

(** ** Delivered names *)






(** ** The request record as a function of the deliveries *)

Ltac eqs_cases :=
  repeat match goal with
         | |- context [if eqs ?a ?b then _ else _] =>
             let E := fresh "E" in
             destruct (eqs a b) eqn:E;
             [apply eqs_true in E; subst|apply eqs_false in E]
         | H : context [if eqs ?a ?b then _ else _] |- _ =>
             let E := fresh "E" in
             destruct (eqs a b) eqn:E;
             [apply eqs_true in E; subst|apply eqs_false in E]
         end.

Ltac flag_step H :=
  rewrite H, elem_of_cons; split;
  [ intros [?|?]; solve [by left | by right; left | by right; right]
  | intros [?|[Heq|?]];
    solve [ by left | by right
          | exfalso; injection Heq; done
          | exfalso; discriminate Heq ] ].

Lemma lastAge_cons (name : gostring) (start : Z) (x : delivery)
    (log : list delivery) :
  lastAge name start (x :: log) =
  lastAge name
    (match x with
     | Pair key value =>
         if eqs key name then fst (validateDeltaSeconds value) else start
     | Token _ => start
     end) log.
Proof. reflexivity. Qed.

Lemma Request_replay_record (log : list delivery)
    (d0 d : Request.RequestCacheDirective) :
  replay d0 log = Ok d ->
  Request.Extensions d =
    Request.Extensions d0 ++
    (render <$> filter (fun x => nameOf x ∉ Request_names) log) /\
  (Request.NoCache d = true <->
   Request.NoCache d0 = true \/ Token HeaderNoCache ∈ log) /\
  (Request.NoStore d = true <->
   Request.NoStore d0 = true \/ Token HeaderNoStore ∈ log) /\
  (Request.OnlyIfCached d = true <->
   Request.OnlyIfCached d0 = true \/ Token HeaderOnlyIfCached ∈ log) /\
  Request.MaxAge d = lastAge HeaderMaxAge (Request.MaxAge d0) log /\
  Request.MaxStale d = lastAge HeaderMaxStale (Request.MaxStale d0) log /\
  Request.MinFresh d = lastAge HeaderMinFresh (Request.MinFresh d0) log.
Proof.
  revert d0. induction log as [|x log IH]; intros d0 Hreplay.
  - injection Hreplay as <-. rewrite app_nil_r.
    repeat split; try done; try tauto;
      intros [?|Hin]; try done; by apply elem_of_nil in Hin.
  - destruct x as [token|key value]; cbn [replay] in Hreplay.
    + change (setToken d0 token) with (Request.setToken d0 token) in Hreplay.
      unfold Request.setToken in Hreplay.
      eqs_cases; try discriminate;
        apply IH in Hreplay as (Hext & Hnc & Hns & Hoic & Hage & Hstale & Hfresh);
        rewrite !lastAge_cons; cbn [Request.with_NoCache Request.with_NoStore
          Request.with_OnlyIfCached Request.with_Extensions Request.Extensions
          Request.NoCache Request.NoStore Request.OnlyIfCached Request.MaxAge
          Request.MaxStale Request.MinFresh] in *;
        (split; [|split; [|split; [|split; [|split; [|split]]]]]);
        try done;
        try flag_step Hnc; try flag_step Hns; try flag_step Hoic.
      rewrite filter_cons_True.
      * rewrite Hext, fmap_cons, <- app_assoc. done.
      * cbn. unfold Request_names.
        repeat (apply not_elem_of_cons; split; [done|]). apply not_elem_of_nil.
    + change (setPair d0 key value) with (Request.setPair d0 key value)
        in Hreplay.
      unfold Request.setPair in Hreplay.
      eqs_cases; try discriminate;
        try (destruct (validateDeltaSeconds value) as [deltaSec [err|]] eqn:Hv;
             [discriminate|]);
        apply IH in Hreplay as (Hext & Hnc & Hns & Hoic & Hage & Hstale & Hfresh);
        rewrite !lastAge_cons; cbn [Request.with_MaxAge Request.with_MaxStale
          Request.with_MinFresh Request.with_Extensions Request.Extensions
          Request.NoCache Request.NoStore Request.OnlyIfCached Request.MaxAge
          Request.MaxStale Request.MinFresh] in *;
        repeat match goal with
               | |- context [eqs ?a ?b] =>
                   first [ rewrite (proj2 (eqs_true a b)) by done
                         | rewrite (proj2 (eqs_false a b)) by done ]
               end;
        try rewrite Hv; cbn [fst];
        (split; [|split; [|split; [|split; [|split; [|split]]]]]);
        try done;
        try flag_step Hnc; try flag_step Hns; try flag_step Hoic.
      rewrite filter_cons_True.
      * rewrite Hext, fmap_cons, <- app_assoc. done.
      * cbn. unfold Request_names.
        repeat (apply not_elem_of_cons; split; [done|]). apply not_elem_of_nil.
Qed.

(** X10. The record the request parser returns is determined by the
    deliveries of the tokenizer: [Extensions] lists, in order, the
    deliveries whose name is not a request directive, a bare name as it is
    and a pair as [name=value]; each flag is set exactly when its name was
    delivered bare; each age field holds the value of the last pair with
    its name, or [-1] when there was none. *)
Theorem request_record_from_deliveries (val : gostring) (log : list delivery)
    (d : Request.RequestCacheDirective) :
  parseCacheControlv (D := list delivery) [] val = Some (Ok log) ->
  NewRequestCacheDirective val = Some (Some d, None) ->
  Request.Extensions d =
    (render <$> filter (fun x => nameOf x ∉ Request_names) log) /\
  (Request.NoCache d = true <-> Token HeaderNoCache ∈ log) /\
  (Request.NoStore d = true <-> Token HeaderNoStore ∈ log) /\
  (Request.OnlyIfCached d = true <-> Token HeaderOnlyIfCached ∈ log) /\
  Request.MaxAge d = lastAge HeaderMaxAge (-1) log /\
  Request.MaxStale d = lastAge HeaderMaxStale (-1) log /\
  Request.MinFresh d = lastAge HeaderMinFresh (-1) log.
Proof.
  intros Hlog. unfold NewRequestCacheDirective.
  rewrite (parseCacheControlv_replay _ _ _ Hlog).
  destruct (replay Request.initial log) as [d0|err] eqn:Hreplay;
    [|discriminate].
  intros [= ->].
  apply Request_replay_record in Hreplay
    as (Hext & Hnc & Hns & Hoic & Hage & Hstale & Hfresh).
  cbn in Hext, Hnc, Hns, Hoic, Hage, Hstale, Hfresh.
  split; [done|]. split; [|split; [|split; [|done]]].
  - rewrite Hnc. split; [by intros [?|?]|by right].
  - rewrite Hns. split; [by intros [?|?]|by right].
  - rewrite Hoic. split; [by intros [?|?]|by right].
Qed.

Lemma request_record_from_deliveries_witness :
  exists d,
    NewRequestCacheDirective "max-age=1, x=y, no-cache, Max-Age=7, FOO"
    = Some (Some d, None) /\
    Request.Extensions d = [str "x=y"; str "foo"] /\
    Request.MaxAge d = 7.
Proof.
  eexists. split; [vm_compute; reflexivity|].
  destruct (request_record_from_deliveries
              "max-age=1, x=y, no-cache, Max-Age=7, FOO"
              [Pair HeaderMaxAge "1"; Pair "x" "y"; Token HeaderNoCache;
               Pair HeaderMaxAge "7"; Token "foo"]
              (Request.with_Extensions
                 (Request.with_NoCache
                    (Request.with_MaxAge Request.initial 7) true)
                 [str "x=y"; str "foo"]))
    as (Hext & _ & _ & _ & Hage & _ & _);
    [vm_compute; reflexivity|vm_compute; reflexivity|].
  split; [exact Hext|exact Hage].
Defined.

(** ** Names without a meaning *)








(** ** The validation table and the age fields of the response side *)

Lemma Response_rejects_sink (x : delivery) (err : error)
    (d : Response.ResponseCacheDirective) :
  Response_rejects x err ->
  match x with
  | Token token => setToken d token
  | Pair key value => setPair d key value
  end = Err err.
Proof. by destruct 1. Qed.

(** X12. The validation table of the response parser.  Whenever the scan
    reaches a position where [max-age], [s-maxage], [stale-if-error] or
    [stale-while-revalidate] is delivered bare, or [must-revalidate],
    [no-store], [no-transform], [public], [proxy-revalidate] or
    [immutable] is delivered with a value, the parse returns the error of
    that name and form and no record. *)
Theorem response_validation_table (val : gostring)
    (d : Response.ResponseCacheDirective) (index index' : nat)
    (x : delivery) (err : error) :
  Response_rejects x err ->
  reaches val Response.zero 0 d index ->
  (index < length val)%nat ->
  delivers val index x index' ->
  NewResponseCacheDirective val = Some (None, Some err).
Proof.
  intros Hrej Hreach Hlt Hx. unfold NewResponseCacheDirective.
  rewrite parseCacheControlv_run, (run_reaches _ _ _ _ _ Hreach).
  rewrite (run_iter_err d val index err); [done|done|].
  rewrite (parseCacheControlv_iter_delivers _ _ _ _ _ Hx).
  pose proof (Response_rejects_sink x err d Hrej) as Hsink.
  destruct x; by rewrite Hsink.
Qed.

Lemma response_validation_table_witness :
  NewResponseCacheDirective "private, Public=yes, max-age"
  = Some (None, Some ErrPublicDirectiveValue).
Proof.
  apply (response_validation_table "private, Public=yes, max-age"
           (Response.with_PrivatePresent Response.zero true) 9 19
           (Pair HeaderPublic "yes")).
  - constructor.
  - reaches_by_computation.
  - simpl; lia.
  - vm_compute; reflexivity.
Defined.

Lemma Response_setToken_ages (d d' : Response.ResponseCacheDirective)
    (token : gostring) :
  Response_agesInRange d -> Response.setToken d token = Ok d' ->
  Response_agesInRange d'.
Proof.
  intros Hd. unfold Response.setToken.
  repeat (destruct (eqs token _); [by (discriminate || intros [= <-])|]).
  by intros [= <-].
Qed.

Lemma Response_setPair_ages (d d' : Response.ResponseCacheDirective)
    (key value : gostring) :
  Response_agesInRange d -> Response.setPair d key value = Ok d' ->
  Response_agesInRange d'.
Proof.
  intros (Hage & Hsage & Herr & Hrev). unfold Response.setPair.
  repeat (destruct (eqs key _); [discriminate|]).
  destruct (eqs key HeaderNoCache); [by intros [= <-]|].
  destruct (eqs key HeaderPrivate); [by intros [= <-]|].
  repeat (destruct (eqs key _);
          [destruct (validateDeltaSeconds value) as [x [err|]] eqn:Hv;
           [discriminate|];
           apply validateDeltaSeconds_range in Hv;
           by intros [= <-]|]).
  by intros [= <-].
Qed.

(** X13. In every record the response parser returns, [MaxAge],
    [SMaxAge], [StaleIfError] and [StaleWhileRevalidate] lie between [0]
    and [2147483647]. *)
Theorem response_age_fields_in_range (val : gostring)
    (d : Response.ResponseCacheDirective) :
  NewResponseCacheDirective val = Some (Some d, None) ->
  0 <= Response.MaxAge d <= 2147483647 /\
  0 <= Response.SMaxAge d <= 2147483647 /\
  0 <= Response.StaleIfError d <= 2147483647 /\
  0 <= Response.StaleWhileRevalidate d <= 2147483647.
Proof.
  unfold NewResponseCacheDirective.
  destruct (parseCacheControlv Response.zero val) as [[d0|err]|] eqn:Hparse;
    try discriminate.
  intros [= ->].
  apply (parseCacheControlv_invariant Response_agesInRange) in Hparse;
    [exact Hparse| | |].
  - intros d1 token d2. apply Response_setToken_ages.
  - intros d1 key value d2. apply Response_setPair_ages.
  - unfold Response_agesInRange, MaxInt32. simpl. lia.
Qed.

Lemma response_age_fields_in_range_witness :
  exists d,
    NewResponseCacheDirective "s-maxage=99999999999, max-age=0" =
    Some (Some d, None) /\
    0 <= Response.MaxAge d <= 2147483647 /\
    0 <= Response.SMaxAge d <= 2147483647 /\
    0 <= Response.StaleIfError d <= 2147483647 /\
    0 <= Response.StaleWhileRevalidate d <= 2147483647.
Proof.
  eexists. split; [vm_compute; reflexivity|].
  apply (response_age_fields_in_range "s-maxage=99999999999, max-age=0").
  vm_compute; reflexivity.
Defined.

(** ** Malformed delta-seconds *)

Lemma Request_age_sink (name : gostring) (err cause : error)
    (d : Request.RequestCacheDirective) (value : gostring) (x : Z) :
  Request_age name err ->
  validateDeltaSeconds value = (x, Some cause) ->
  Request.setPair d name value = Err (Wrapf err cause).
Proof.
  intros Hage Hv. destruct Hage; unfold Request.setPair; cbn [eqs];
    by rewrite Hv.
Qed.

Lemma Response_age_sink (name : gostring) (err cause : error)
    (d : Response.ResponseCacheDirective) (value : gostring) (x : Z) :
  Response_age name err ->
  validateDeltaSeconds value = (x, Some cause) ->
  Response.setPair d name value = Err (Wrapf err cause).
Proof.
  intros Hage Hv. destruct Hage; unfold Response.setPair; cbn [eqs];
    by rewrite Hv.
Qed.

(** X14. When the scan reaches an age directive whose value
    [validateDeltaSeconds] refuses, the parse returns the error of that
    name wrapped around the cause, and no record: on the request side for
    [max-age], [max-stale], [min-fresh], on the response side for
    [max-age], [s-maxage], [stale-if-error], [stale-while-revalidate]. *)
Theorem malformed_age_is_wrapped :
  (forall val d index index' name value err x cause,
      Request_age name err ->
      reaches val Request.initial 0 d index ->
      (index < length val)%nat ->
      delivers val index (Pair name value) index' ->
      validateDeltaSeconds value = (x, Some cause) ->
      NewRequestCacheDirective val = Some (None, Some (Wrapf err cause))) /\
  (forall val d index index' name value err x cause,
      Response_age name err ->
      reaches val Response.zero 0 d index ->
      (index < length val)%nat ->
      delivers val index (Pair name value) index' ->
      validateDeltaSeconds value = (x, Some cause) ->
      NewResponseCacheDirective val = Some (None, Some (Wrapf err cause))).
Proof.
  split.
  - intros val d index index' name value err x cause Hage Hreach Hlt Hx Hv.
    unfold NewRequestCacheDirective.
    rewrite parseCacheControlv_run, (run_reaches _ _ _ _ _ Hreach).
    rewrite (run_iter_err d val index (Wrapf err cause)); [done|done|].
    rewrite (parseCacheControlv_iter_delivers _ _ _ _ _ Hx).
    change (setPair d name value) with (Request.setPair d name value).
    by rewrite (Request_age_sink name err cause d value x Hage Hv).
  - intros val d index index' name value err x cause Hage Hreach Hlt Hx Hv.
    unfold NewResponseCacheDirective.
    rewrite parseCacheControlv_run, (run_reaches _ _ _ _ _ Hreach).
    rewrite (run_iter_err d val index (Wrapf err cause)); [done|done|].
    rewrite (parseCacheControlv_iter_delivers _ _ _ _ _ Hx).
    change (setPair d name value) with (Response.setPair d name value).
    by rewrite (Response_age_sink name err cause d value x Hage Hv).
Qed.

Lemma malformed_age_is_wrapped_witness :
  NewRequestCacheDirective "no-store, min-fresh=-1"
  = Some (None, Some (Wrapf ErrMinFreshDeltaSeconds (NumError "-1" ErrSyntax))).
Proof.
  apply (proj1 malformed_age_is_wrapped "no-store, min-fresh=-1"
           (Request.with_NoStore Request.initial true) 10%nat 22%nat
           HeaderMinFresh "-1" ErrMinFreshDeltaSeconds (-1)
           (NumError "-1" ErrSyntax)).
  - constructor.
  - reaches_by_computation.
  - simpl; lia.
  - vm_compute; reflexivity.
  - vm_compute; reflexivity.
Defined.

(** ** What [validateDeltaSeconds] returns *)

Lemma ParseUint_loop_error (s0 s : gostring) (n v : Z) (e : error) :
  ParseUint_loop s0 10 (maxUint64 / 10 + 1) (2 ^ 32 - 1) s n = (v, Some e) ->
  e = NumError s0 ErrSyntax \/ e = NumError s0 ErrRange.
Proof.
  revert n. induction s as [|c s IH]; intros n; cbn [ParseUint_loop].
  - discriminate.
  - destruct (digitOf c) as [d|]; [|intros [= _ <-]; by left].
    destruct (d >=? 10); [intros [= _ <-]; by left|].
    destruct (n >=? _); [intros [= _ <-]; by right|].
    destruct (_ || _); [intros [= _ <-]; by right|].
    apply IH.
Qed.

Lemma ParseUint_loop_app_digits (s0 n rest : gostring) (acc : Z) :
  Forall (fun c => isDigit c = true) n -> 0 <= acc <= 4294967295 ->
  ParseUint_loop s0 10 (maxUint64 / 10 + 1) (2 ^ 32 - 1) (n ++ rest) acc =
  if valueFrom acc n <=? 4294967295
  then ParseUint_loop s0 10 (maxUint64 / 10 + 1) (2 ^ 32 - 1) rest
         (valueFrom acc n)
  else (4294967295, Some (NumError s0 ErrRange)).
Proof.
  change (maxUint64 / 10 + 1) with 1844674407370955162.
  change (2 ^ 32 - 1) with 4294967295.
  revert acc. induction n as [|c n IH]; intros acc Hall Hacc.
  - cbn [app valueFrom foldl]. destruct (Z.leb_spec acc 4294967295); [done|lia].
  - inversion Hall as [|? ? Hc Hn]; subst.
    destruct (isDigit_digitOf c Hc) as [Hdigit Hd].
    cbn [app ParseUint_loop valueFrom foldl]. rewrite Hdigit.
    destruct (Z.geb_spec (code c - 48) 10); [lia|].
    destruct (Z.geb_spec acc 1844674407370955162); [lia|].
    change (2 ^ 64) with 18446744073709551616.
    rewrite (Z.mod_small (acc * 10)) by lia.
    rewrite (Z.mod_small (acc * 10 + (code c - 48))) by lia.
    destruct (Z.ltb_spec (acc * 10 + (code c - 48)) (acc * 10)); [lia|].
    cbn [orb].
    fold (valueFrom (acc * 10 + (code c - 48)) n).
    destruct (Z.gtb_spec (acc * 10 + (code c - 48)) 4294967295) as [Hover|Hfit].
    + pose proof (valueFrom_ge (acc * 10 + (code c - 48)) n Hn ltac:(lia)).
      destruct (Z.leb_spec (valueFrom (acc * 10 + (code c - 48)) n) 4294967295);
        [lia|done].
    + apply IH; [done|lia].
Qed.

Lemma not_digit_is_refused (c : ascii) :
  isDigit c = false ->
  match digitOf c with
  | Some d => d >=? 10
  | None => true
  end = true.
Proof. by_byte c. Qed.

(** X15. Whatever the string, [validateDeltaSeconds] returns either [-1]
    with the syntax error of [ParseUint] on that string, or no error and a
    value between [0] and [2147483647]; it never returns a range error. *)
Theorem validateDeltaSeconds_outcomes (delta : gostring) :
  validateDeltaSeconds delta = (-1, Some (NumError delta ErrSyntax)) \/
  exists x, validateDeltaSeconds delta = (x, None) /\ 0 <= x <= 2147483647.
Proof.
  destruct (validateDeltaSeconds delta) as [x [err|]] eqn:Hv.
  - left. unfold validateDeltaSeconds, ParseUint in Hv.
    destruct delta as [|c delta]; [by injection Hv as <- <-|].
    destruct (ParseUint_loop _ _ _ _ _ _) as [v [e|]] eqn:Hloop.
    + apply ParseUint_loop_error in Hloop as [->| ->].
      * by injection Hv as <- <-.
      * discriminate.
    + destruct (v >? MaxInt32); discriminate.
  - right. exists x. split; [done|].
    by apply validateDeltaSeconds_range in Hv.
Qed.

(** X16. A string is refused when it is empty or when a byte that is not a
    decimal digit comes before the digits read so far exceed 4294967295:
    a sign, a letter, a space or a dot anywhere in a value that fits. *)
Theorem validateDeltaSeconds_refuses (n rest : gostring) (c : ascii) :
  Forall (fun b => isDigit b = true) n ->
  digitsValue n <= 4294967295 ->
  isDigit c = false ->
  validateDeltaSeconds (n ++ c :: rest) =
  (-1, Some (NumError (n ++ c :: rest) ErrSyntax)) /\
  validateDeltaSeconds [] = (-1, Some (NumError [] ErrSyntax)).
Proof.
  intros Hn Hfit Hc. split; [|reflexivity].
  unfold validateDeltaSeconds, ParseUint.
  destruct (n ++ c :: rest) as [|b s] eqn:Hs; [by destruct n|].
  rewrite <- Hs. rewrite ParseUint_loop_app_digits by (done || lia).
  fold (digitsValue n).
  destruct (Z.leb_spec (digitsValue n) 4294967295); [|lia].
  cbn [ParseUint_loop].
  pose proof (not_digit_is_refused c Hc) as Hrefused.
  destruct (digitOf c) as [d|]; [|done].
  change ((d >=? 10) = true) in Hrefused. by rewrite Hrefused.
Qed.

Lemma validateDeltaSeconds_refuses_witness :
  validateDeltaSeconds ("12" ++ "."%char :: "5") =
  (-1, Some (NumError ("12" ++ "."%char :: "5") ErrSyntax)) /\
  validateDeltaSeconds [] = (-1, Some (NumError [] ErrSyntax)).
Proof.
  apply (validateDeltaSeconds_refuses "12" "5" "."%char).
  - repeat constructor.
  - vm_compute. discriminate.
  - reflexivity.
Defined.

(** X17. Once the digits read exceed 4294967295 the value is saturated
    whatever follows: [ParseUint] reports the range error before it looks
    at the remaining bytes, so trailing bytes that are not digits do not
    make such a value an error. *)
Theorem validateDeltaSeconds_saturates_early (n rest : gostring) :
  Forall (fun b => isDigit b = true) n ->
  4294967295 < digitsValue n ->
  validateDeltaSeconds (n ++ rest) = (2147483647, None).
Proof.
  intros Hn Hover. unfold validateDeltaSeconds, ParseUint.
  destruct (n ++ rest) as [|b s] eqn:Hs.
  { destruct n; [|discriminate]. vm_compute in Hover. discriminate. }
  rewrite <- Hs. rewrite ParseUint_loop_app_digits by (done || lia).
  fold (digitsValue n).
  destruct (Z.leb_spec (digitsValue n) 4294967295); [lia|done].
Qed.

Lemma validateDeltaSeconds_saturates_early_witness :
  validateDeltaSeconds ("4294967296" ++ str " days") = (2147483647, None).
Proof.
  apply (validateDeltaSeconds_saturates_early "4294967296" " days").
  - repeat constructor.
  - vm_compute. reflexivity.
Defined.

(** ** The byte classes *)

(** X18. The token bytes are the letters, the digits and the fifteen
    marks that [validHeaderFieldByte] lists (the bytes Go accepts in a
    header field name); whitespace is a separator; a token byte is no
    separator, no control byte and is never skipped between directives;
    text within quotes is any byte but a control byte or the quote; a
    control byte is neither. *)
Theorem byte_classes (c : ascii) :
  isToken c = validHeaderFieldByte c /\
  (isWhiteSpace c = true -> isSeparator c = true) /\
  (isToken c = true ->
   isSeparator c = false /\ isCtl c = false /\ skipped c = false) /\
  (isQdText c = true <-> isCtl c = false /\ c <> DQUOTE) /\
  (isCtl c = true -> isToken c = false /\ isQdText c = false).
Proof.
  split; [by_byte c|]. split; [by_byte c|]. split; [by_byte c|].
  split; [|by_byte c].
  unfold isQdText, isAnyText. rewrite andb_true_iff, !negb_true_iff.
  by rewrite ascii_eqb_neq.
Qed.

(** ** The other two forms of a directive *)

(** X19. At a name followed by ['='] and a quoted value that is closed,
    the pair delivered carries the unescaped bytes of the value, and the
    scan goes on right after the closing quote, whatever follows it. *)
Theorem quoted_value_delivered (val : gostring) (index : nat)
    (body : gostring) (n : nat) (value : gostring) :
  quotedValueAt val index body ->
  unquoteBody body = Some (n, value) ->
  let tokenEnd := scanTo tokenStop (drop (index + 1) val) (index + 1) in
  delivers val index (Pair (ToLower (slice val index tokenEnd)) value)
    (tokenEnd + 1 + (1 + n)) /\
  byteAt val (tokenEnd + 1 + n) = DQUOTE.
Proof.
  intros (Hlt & Hskip & Hmore & Heq & Hdrop) Hbody tokenEnd.
  fold tokenEnd in Hmore, Heq, Hdrop.
  split.
  - unfold delivers, unitAt, parseCacheControlv_iter. cbv zeta.
    fold tokenEnd. rewrite Hskip, Heq, Hdrop.
    destruct (Nat.ltb_spec (tokenEnd + 1) (length val)); [|lia].
    assert (byteAt val (tokenEnd + 1) = DQUOTE) as ->.
    { replace (tokenEnd + 1)%nat with (tokenEnd + 1 + 0)%nat by lia.
      by rewrite <- byteAt_drop, Hdrop. }
    change (Ascii.eqb EQUALS EQUALS) with true.
    change (Ascii.eqb DQUOTE DQUOTE) with true. cbn [andb].
    rewrite parseQuotedString_unquoteBody, Hbody.
    destruct (Z.eqb_spec (Z.of_nat (1 + n)) (-1)); [lia|].
    rewrite Nat2Z.id. reflexivity.
  - destruct (unquoteBody_local _ _ _ Hbody) as (Hn & Hlast & _ & _).
    replace (tokenEnd + 1 + n)%nat with (tokenEnd + 1 + S (n - 1))%nat by lia.
    rewrite <- byteAt_drop, Hdrop. exact Hlast.
Qed.

Lemma quoted_value_delivered_witness :
  delivers ("a, Private=" ++ DQUOTE :: "x" ++ BACKSLASH :: "ty" ++ DQUOTE :: "b")
    3 (Pair HeaderPrivate ("x" ++ TAB :: "y")) 17 /\
  byteAt ("a, Private=" ++ DQUOTE :: "x" ++ BACKSLASH :: "ty" ++ DQUOTE :: "b")
    16 = DQUOTE.
Proof.
  apply (quoted_value_delivered
           ("a, Private=" ++ DQUOTE :: "x" ++ BACKSLASH :: "ty" ++ DQUOTE :: "b")
           3 ("x" ++ BACKSLASH :: "ty" ++ DQUOTE :: "b") 5
           ("x" ++ TAB :: "y")).
  - unfold quotedValueAt. cbv zeta. vm_compute. repeat split; lia.
  - vm_compute; reflexivity.
Defined.

(** X20. A name that is not followed by ['='], or whose ['='] is the last
    byte of the header, is delivered as a bare token, and the scan goes on
    at the byte after the name; the test against a lone comma in the
    source never fires. *)
Theorem bare_name_delivered (val : gostring) (index : nat) :
  (index < length val)%nat ->
  skipped (byteAt val index) = false ->
  let tokenEnd := scanTo tokenStop (drop (index + 1) val) (index + 1) in
  (length val <= tokenEnd + 1)%nat \/ byteAt val tokenEnd <> EQUALS ->
  delivers val index (Token (ToLower (slice val index tokenEnd))) tokenEnd /\
  ToLower (slice val index tokenEnd) <> [COMMA].
Proof.
  intros Hlt Hskip tokenEnd Hbare.
  destruct (tokenEnd_bounds val index Hlt) as (Hbounds & _ & _).
  fold tokenEnd in Hbounds.
  assert (ToLower (slice val index tokenEnd) <> [COMMA]) as Hcomma.
  { unfold slice.
    destruct (lookup_lt_is_Some_2 val index Hlt) as [b Hb].
    rewrite (drop_S _ _ _ Hb).
    assert (byteAt val index = b) as Hbyte.
    { unfold byteAt. by apply nth_lookup_Some with (d := zero) in Hb. }
    destruct (tokenEnd - index)%nat as [|k] eqn:Hk; [lia|].
    cbn [take ToLower map]. intros [= Hlower _].
    apply lower_comma in Hlower. rewrite Hlower in Hbyte.
    rewrite Hbyte in Hskip. discriminate. }
  split; [|done].
  unfold delivers, unitAt, parseCacheControlv_iter. cbv zeta.
  fold tokenEnd. unfold skipped in Hskip. rewrite Hskip.
  apply eqs_false in Hcomma.
  change (str ",") with [COMMA]. rewrite Hcomma. cbn [negb].
  assert ((tokenEnd + 1 <? length val)%nat
          && Ascii.eqb (byteAt val tokenEnd) EQUALS = false) as ->; [|done].
  destruct Hbare as [Hend|Hne].
  - destruct (Nat.ltb_spec (tokenEnd + 1) (length val)); [lia|done].
  - apply ascii_eqb_neq in Hne. rewrite Hne. apply andb_false_r.
Qed.

Lemma bare_name_delivered_witness :
  delivers "no-store,x=" 9 (Token "x") 10 /\
  ToLower (slice "no-store,x=" 9 10) <> [COMMA].
Proof.
  apply (bare_name_delivered "no-store,x=" 9).
  - simpl; lia.
  - reflexivity.
  - left. simpl. lia.
Defined.

(** ** The response record as a function of the deliveries *)

(** A field that each sink operation changes by [step] is, after a replay,
    the fold of [step] over the deliveries. *)
Lemma replay_fold {D A : Type} `{directive D} (f : D -> A)
    (step : A -> delivery -> A) :
  (forall d token d',
      setToken d token = Ok d' -> f d' = step (f d) (Token token)) ->
  (forall d key value d',
      setPair d key value = Ok d' -> f d' = step (f d) (Pair key value)) ->
  forall log d0 d, replay d0 log = Ok d -> f d = foldl step (f d0) log.
Proof.
  intros Htoken Hpair.
  induction log as [|x log IH]; intros d0 d Hreplay.
  - by injection Hreplay as <-.
  - destruct x as [token|key value]; cbn [replay foldl] in *.
    + destruct (setToken d0 token) as [d1|err] eqn:Hset; [|discriminate].
      rewrite (IH _ _ Hreplay). f_equal. by apply Htoken.
    + destruct (setPair d0 key value) as [d1|err] eqn:Hset; [|discriminate].
      rewrite (IH _ _ Hreplay). f_equal. by apply Hpair.
Qed.

Lemma foldl_flagStep (name : gostring) (log : list delivery) (a : bool) :
  foldl (flagStep name) a log = true <-> a = true \/ Token name ∈ log.
Proof.
  revert a. induction log as [|x log IH]; intros a; cbn [foldl].
  - split; [by left|]. intros [?|Hin]; [done|]. by apply elem_of_nil in Hin.
  - rewrite IH, elem_of_cons. destruct x as [token|key value]; cbn [flagStep].
    + rewrite orb_true_iff, eqs_true. split.
      * intros [[?| ->]|?]; auto.
      * intros [?|[[= ->]|?]]; auto.
    + split; [intros [?|?]; auto|]. intros [?|[?|?]]; auto. discriminate.
Qed.

Lemma foldl_presentStep (name : gostring) (log : list delivery) (a : bool) :
  foldl (presentStep name) a log = true <->
  a = true \/ exists x, x ∈ log /\ nameOf x = name.
Proof.
  revert a. induction log as [|x log IH]; intros a; cbn [foldl].
  - split; [by left|]. intros [?|(x & Hin & _)]; [done|].
    by apply elem_of_nil in Hin.
  - rewrite IH. unfold presentStep. rewrite orb_true_iff, eqs_true. split.
    + intros [[?|Hx]|(y & Hin & Hy)]; [by left| |].
      * right. exists x. split; [by left|done].
      * right. exists y. split; [by right|done].
    + intros [?|(y & Hin & Hy)]; [by left; left|].
      apply elem_of_cons in Hin as [->|Hin]; [by left; right|].
      right. by exists y.
Qed.

Lemma foldl_extensionStep (names : list gostring) (log : list delivery)
    (a : list gostring) :
  foldl (extensionStep names) a log =
  a ++ (render <$> filter (fun x => nameOf x ∉ names) log).
Proof.
  revert a. induction log as [|x log IH]; intros a; cbn [foldl].
  - by rewrite app_nil_r.
  - rewrite IH. unfold extensionStep. case_bool_decide as Hx.
    + rewrite filter_cons_False; [done|]. by intros Hnot.
    + rewrite filter_cons_True by done. by rewrite fmap_cons, <- app_assoc.
Qed.

Lemma foldl_fieldStep_hasField (name : gostring) (log : list delivery)
    (a : option (gmap gostring bool)) (k : gostring) :
  hasField (foldl (fieldStep name) a log) k <->
  hasField a k \/ exists value, Pair name value ∈ log /\ k ∈ fieldNames value.
Proof.
  revert a. induction log as [|x log IH]; intros a; cbn [foldl].
  - split; [by left|]. intros [?|(v & Hin & _)]; [done|].
    by apply elem_of_nil in Hin.
  - rewrite IH. destruct x as [token|key value]; cbn [fieldStep].
    + split.
      * intros [?|(v & Hin & Hk)]; [by left|]. right. exists v.
        split; [by right|done].
      * intros [?|(v & Hin & Hk)]; [by left|]. right. exists v.
        apply elem_of_cons in Hin as [?|?]; [discriminate|done].
    + destruct (eqs key name) eqn:Hkey.
      * apply eqs_true in Hkey as ->. split.
        -- intros [(m & [= <-] & Hm)|(v & Hin & Hk)].
           ++ rewrite addFields_lookup in Hm.
              destruct (decide (k ∈ fieldNames value)) as [Hin|Hout].
              ** right. exists value. split; [by left|done].
              ** left. unfold hasField. destruct a as [m|]; [eauto|].
                 cbn in Hm. by rewrite lookup_empty in Hm.
           ++ right. exists v. split; [by right|done].
        -- intros [(m & -> & Hm)|(v & Hin & Hk)].
           ++ left. eexists. split; [done|]. by apply addFields_keeps.
           ++ apply elem_of_cons in Hin as [[= <-]|Hin].
              ** left. eexists. split; [done|].
                 rewrite addFields_lookup. by rewrite decide_True.
              ** right. by exists v.
      * apply eqs_false in Hkey. split.
        -- intros [?|(v & Hin & Hk)]; [by left|]. right. exists v.
           split; [by right|done].
        -- intros [?|(v & Hin & Hk)]; [by left|]. right. exists v.
           apply elem_of_cons in Hin as [[= ? ?]|?]; [congruence|done].
Qed.

Lemma foldl_fieldStep_None (name : gostring) (log : list delivery)
    (a : option (gmap gostring bool)) :
  foldl (fieldStep name) a log = None <->
  a = None /\ forall value, Pair name value ∉ log.
Proof.
  revert a. induction log as [|x log IH]; intros a; cbn [foldl].
  - split; [|by intros [? _]]. intros ->. split; [done|].
    intros v. apply not_elem_of_nil.
  - rewrite IH. destruct x as [token|key value]; cbn [fieldStep].
    + split; intros [Ha Hno]; (split; [done|]); intros v.
      * apply not_elem_of_cons. split; [discriminate|apply Hno].
      * specialize (Hno v). by apply not_elem_of_cons in Hno as [_ ?].
    + destruct (eqs key name) eqn:Hkey.
      * apply eqs_true in Hkey as ->. split; [by intros [? _]|].
        intros [_ Hno]. destruct (Hno value). by left.
      * apply eqs_false in Hkey.
        split; intros [Ha Hno]; (split; [done|]); intros v.
        -- apply not_elem_of_cons. split; [congruence|apply Hno].
        -- specialize (Hno v). by apply not_elem_of_cons in Hno as [_ ?].
Qed.

Lemma foldl_fieldStep_true (name : gostring) (log : list delivery)
    (a : option (gmap gostring bool)) :
  (forall m k b, a = Some m -> m !! k = Some b -> b = true) ->
  forall m k b,
    foldl (fieldStep name) a log = Some m -> m !! k = Some b -> b = true.
Proof.
  revert a. induction log as [|x log IH]; intros a Ha; cbn [foldl]; [done|].
  apply IH. destruct x as [token|key value]; cbn [fieldStep]; [done|].
  destruct (eqs key name); [|done].
  intros m k b [= <-]. rewrite addFields_lookup.
  destruct (decide _); [by intros [= <-]|].
  destruct a as [m|]; cbn; [by apply Ha|by rewrite lookup_empty].
Qed.

Ltac eqs_simpl :=
  repeat match goal with
         | |- context [eqs ?a ?b] =>
             first [ rewrite (proj2 (eqs_true a b)) by done
                   | rewrite (proj2 (eqs_false a b)) by done ]
         end.

Ltac in_names :=
  repeat (apply elem_of_cons; first [by left|right]).

Ltac names_simpl :=
  repeat match goal with
         | |- context [bool_decide (?a ∈ Response_names)] =>
             first [ rewrite (bool_decide_eq_true_2 (a ∈ Response_names))
                       by (unfold Response_names; in_names)
                   | rewrite (bool_decide_eq_false_2 (a ∈ Response_names))
                       by (unfold Response_names; 
                           repeat (apply not_elem_of_cons; split; [done|]);
                           apply not_elem_of_nil) ]
         end.

Ltac response_step :=
  intros;
  match goal with
  | H : setToken _ _ = Ok _ |- _ =>
      cbn [setToken Response.sink] in H; unfold Response.setToken in H
  | H : setPair _ _ _ = Ok _ |- _ =>
      cbn [setPair Response.sink] in H; unfold Response.setPair in H
  end;
  eqs_cases; try discriminate;
  try match goal with
      | H : context [validateDeltaSeconds ?v] |- _ =>
          let Hv := fresh "Hv" in
          destruct (validateDeltaSeconds v) as [? [?|]] eqn:Hv;
          [discriminate|]
      end;
  match goal with H : Ok _ = Ok _ |- _ => injection H as <- end;
  unfold flagStep, presentStep, extensionStep, ageStep, fieldStep;
  cbn -[eqs validateDeltaSeconds Response.addFields bool_decide
        Response_names];
  eqs_simpl; names_simpl;
  try match goal with
      | Hv : validateDeltaSeconds _ = _ |- _ => rewrite ?Hv
      end;
  cbn [fst];
  rewrite ?orb_true_r, ?orb_false_r;
  try done.

Lemma Response_replay_flags (log : list delivery)
    (d0 d : Response.ResponseCacheDirective) :
  replay d0 log = Ok d ->
  Response.Public d = foldl (flagStep HeaderPublic) (Response.Public d0) log /\
  Response.NoStore d = foldl (flagStep HeaderNoStore) (Response.NoStore d0) log /\
  Response.Immutable d =
    foldl (flagStep HeaderImmutable) (Response.Immutable d0) log /\
  Response.NoTransform d =
    foldl (flagStep HeaderNoTransform) (Response.NoTransform d0) log /\
  Response.MustRevalidate d =
    foldl (flagStep HeaderMustRevalidate) (Response.MustRevalidate d0) log /\
  Response.ProxyRevalidate d =
    foldl (flagStep HeaderProxyRevalidate) (Response.ProxyRevalidate d0) log /\
  Response.NoCachePresent d =
    foldl (presentStep HeaderNoCache) (Response.NoCachePresent d0) log /\
  Response.PrivatePresent d =
    foldl (presentStep HeaderPrivate) (Response.PrivatePresent d0) log.
Proof.
  intros Hreplay.
  repeat split;
    (apply (replay_fold _ _) with (3 := Hreplay); response_step).
Qed.

Lemma Response_replay_values (log : list delivery)
    (d0 d : Response.ResponseCacheDirective) :
  replay d0 log = Ok d ->
  Response.MaxAge d = lastAge HeaderMaxAge (Response.MaxAge d0) log /\
  Response.SMaxAge d = lastAge HeaderSMaxAge (Response.SMaxAge d0) log /\
  Response.StaleIfError d =
    lastAge HeaderStaleIfError (Response.StaleIfError d0) log /\
  Response.StaleWhileRevalidate d =
    lastAge HeaderStaleWhileRevalidate (Response.StaleWhileRevalidate d0) log /\
  Response.Extensions d =
    foldl (extensionStep Response_names) (Response.Extensions d0) log /\
  Response.NoCache d = foldl (fieldStep HeaderNoCache) (Response.NoCache d0) log /\
  Response.Private d = foldl (fieldStep HeaderPrivate) (Response.Private d0) log.
Proof.
  intros Hreplay.
  split; [|split; [|split; [|split; [|split; [|split]]]]].
  - apply (replay_fold Response.MaxAge (ageStep HeaderMaxAge))
      with (3 := Hreplay); response_step.
  - apply (replay_fold Response.SMaxAge (ageStep HeaderSMaxAge))
      with (3 := Hreplay); response_step.
  - apply (replay_fold Response.StaleIfError (ageStep HeaderStaleIfError))
      with (3 := Hreplay); response_step.
  - apply (replay_fold Response.StaleWhileRevalidate
             (ageStep HeaderStaleWhileRevalidate))
      with (3 := Hreplay); response_step.
  - apply (replay_fold _ _) with (3 := Hreplay); response_step.
  - apply (replay_fold _ _) with (3 := Hreplay); response_step.
  - apply (replay_fold _ _) with (3 := Hreplay); response_step.
Qed.

(** X21. The flags, the age fields and the extensions of the record the
    response parser returns are determined by the deliveries: a flag is
    set exactly when its name was delivered bare; a presence flag exactly
    when [no-cache] (or [private]) was delivered in either form; an age
    field holds the value of the last pair with its name, or [0];
    [Extensions] lists, in order, the deliveries whose name is not a
    response directive. *)
Theorem response_record_from_deliveries (val : gostring)
    (log : list delivery) (d : Response.ResponseCacheDirective) :
  parseCacheControlv (D := list delivery) [] val = Some (Ok log) ->
  NewResponseCacheDirective val = Some (Some d, None) ->
  (Response.Public d = true <-> Token HeaderPublic ∈ log) /\
  (Response.NoStore d = true <-> Token HeaderNoStore ∈ log) /\
  (Response.Immutable d = true <-> Token HeaderImmutable ∈ log) /\
  (Response.NoTransform d = true <-> Token HeaderNoTransform ∈ log) /\
  (Response.MustRevalidate d = true <-> Token HeaderMustRevalidate ∈ log) /\
  (Response.ProxyRevalidate d = true <-> Token HeaderProxyRevalidate ∈ log) /\
  (Response.NoCachePresent d = true <->
   exists x, x ∈ log /\ nameOf x = HeaderNoCache) /\
  (Response.PrivatePresent d = true <->
   exists x, x ∈ log /\ nameOf x = HeaderPrivate) /\
  Response.MaxAge d = lastAge HeaderMaxAge 0 log /\
  Response.SMaxAge d = lastAge HeaderSMaxAge 0 log /\
  Response.StaleIfError d = lastAge HeaderStaleIfError 0 log /\
  Response.StaleWhileRevalidate d = lastAge HeaderStaleWhileRevalidate 0 log /\
  Response.Extensions d =
    (render <$> filter (fun x => nameOf x ∉ Response_names) log).
Proof.
  intros Hlog. unfold NewResponseCacheDirective.
  rewrite (parseCacheControlv_replay _ _ _ Hlog).
  destruct (replay Response.zero log) as [d0|err] eqn:Hreplay; [|discriminate].
  intros [= ->].
  destruct (Response_replay_flags _ _ _ Hreplay)
    as (Hpub & Hns & Him & Hnt & Hmr & Hpr & Hncp & Hpp).
  destruct (Response_replay_values _ _ _ Hreplay)
    as (Hage & Hsage & Herr & Hrev & Hext & _ & _).
  assert (forall name, foldl (flagStep name) false log = true
                       <-> Token name ∈ log) as Hflag.
  { intros name. rewrite foldl_flagStep. split; [by intros [?|?]|by right]. }
  assert (forall name, foldl (presentStep name) false log = true
                       <-> exists x, x ∈ log /\ nameOf x = name) as Hpresent.
  { intros name. rewrite foldl_presentStep.
    split; [by intros [?|?]|by right]. }
  rewrite Hpub, Hns, Him, Hnt, Hmr, Hpr, Hncp, Hpp, Hage, Hsage, Herr, Hrev, Hext.
  cbn [Response.zero Response.Public Response.NoStore Response.Immutable
       Response.NoTransform Response.MustRevalidate Response.ProxyRevalidate
       Response.NoCachePresent Response.PrivatePresent Response.MaxAge
       Response.SMaxAge Response.StaleIfError Response.StaleWhileRevalidate
       Response.Extensions].
  rewrite foldl_extensionStep. cbn [app].
  repeat split; try apply Hflag; try apply Hpresent.
Qed.

Lemma response_record_from_deliveries_witness :
  exists d,
    NewResponseCacheDirective "private=x, no-cache, s-maxage=3, S-MAXAGE=4, y"
    = Some (Some d, None) /\
    Response.SMaxAge d = 4 /\ Response.Extensions d = [str "y"].
Proof.
  eexists. split; [vm_compute; reflexivity|].
  destruct (response_record_from_deliveries
              "private=x, no-cache, s-maxage=3, S-MAXAGE=4, y"
              [Pair HeaderPrivate "x"; Token HeaderNoCache;
               Pair HeaderSMaxAge "3"; Pair HeaderSMaxAge "4"; Token "y"]
              (Response.with_Extensions
                 (Response.with_SMaxAge
                    (Response.with_NoCachePresent
                       (Response.with_Private
                          (Response.with_PrivatePresent Response.zero true)
                          (Some (<[str "X" := true]> ∅))) true) 4)
                 [str "y"]))
    as (_ & _ & _ & _ & _ & _ & _ & _ & _ & Hsage & _ & _ & Hext);
    [vm_compute; reflexivity|vm_compute; reflexivity|].
  split; [exact Hsage|exact Hext].
Defined.

(** X22. The field-name maps of the record the response parser returns
    are determined by the deliveries: the [NoCache] map holds a name
    exactly when some [no-cache] pair delivered has it among the field
    names of its value; the map is [nil] exactly when no [no-cache] pair
    was delivered; and every value stored in it is [true].  Likewise for
    [Private]. *)
Theorem response_field_names_from_deliveries (val : gostring)
    (log : list delivery) (d : Response.ResponseCacheDirective) :
  parseCacheControlv (D := list delivery) [] val = Some (Ok log) ->
  NewResponseCacheDirective val = Some (Some d, None) ->
  (forall k, hasField (Response.NoCache d) k <->
             exists value, Pair HeaderNoCache value ∈ log /\
                           k ∈ fieldNames value) /\
  (Response.NoCache d = None <-> forall value, Pair HeaderNoCache value ∉ log) /\
  (forall m k b, Response.NoCache d = Some m -> m !! k = Some b -> b = true) /\
  (forall k, hasField (Response.Private d) k <->
             exists value, Pair HeaderPrivate value ∈ log /\
                           k ∈ fieldNames value) /\
  (Response.Private d = None <-> forall value, Pair HeaderPrivate value ∉ log) /\
  (forall m k b, Response.Private d = Some m -> m !! k = Some b -> b = true).
Proof.
  intros Hlog. unfold NewResponseCacheDirective.
  rewrite (parseCacheControlv_replay _ _ _ Hlog).
  destruct (replay Response.zero log) as [d0|err] eqn:Hreplay; [|discriminate].
  intros [= ->].
  destruct (Response_replay_values _ _ _ Hreplay)
    as (_ & _ & _ & _ & _ & Hnc & Hp).
  rewrite Hnc, Hp. cbn [Response.zero Response.NoCache Response.Private].
  split; [|split; [|split; [|split; [|split]]]].
  - intros k. rewrite foldl_fieldStep_hasField.
    split; [|by right]. intros [(m & Hm & _)|?]; [discriminate|done].
  - rewrite foldl_fieldStep_None. split; [by intros [_ ?]|done].
  - by apply foldl_fieldStep_true.
  - intros k. rewrite foldl_fieldStep_hasField.
    split; [|by right]. intros [(m & Hm & _)|?]; [discriminate|done].
  - rewrite foldl_fieldStep_None. split; [by intros [_ ?]|done].
  - by apply foldl_fieldStep_true.
Qed.

Lemma response_field_names_from_deliveries_witness :
  hasField (Some (<[str "Etag" := true]> (<[str "X-A" := true]> ∅))) "Etag"
  <-> exists value,
      Pair HeaderNoCache value
      ∈ [Pair HeaderNoCache "x-a"; Token HeaderNoCache; Pair HeaderNoCache "etag"]
      /\ str "Etag" ∈ fieldNames value.
Proof.
  apply (proj1 (response_field_names_from_deliveries
           "no-cache=x-a, no-cache, no-cache=etag"
           [Pair HeaderNoCache "x-a"; Token HeaderNoCache;
            Pair HeaderNoCache "etag"]
           (Response.with_NoCache
              (Response.with_NoCachePresent Response.zero true)
              (Some (<[str "Etag" := true]> (<[str "X-A" := true]> ∅))))
           ltac:(vm_compute; reflexivity) ltac:(vm_compute; reflexivity))
           "Etag").
Defined.
